(** * Restify: schema resolution and SQL statement generation

    A shallow embedding of [src/Restify.js].

    The schema handed to the constructor is a JavaScript object whose
    values are collection objects whose values are field descriptor
    objects.  These objects live in a store, because the constructor
    mutates objects through references and the caller keeps a reference
    to the configuration it passed.  The store is typed by level: schema
    objects, collection objects and field descriptor objects have their
    own address spaces.  Attribute values of a field descriptor are the
    primitive values the class documentation declares ([String],
    [Boolean]) together with [null] and [undefined]. *)

From Stdlib Require Import List String Ascii Bool Arith NArith Lia.
Import ListNotations.
Local Open Scope string_scope.
Local Open Scope list_scope.

(* ===================================================================== *)
(** ** JavaScript values *)
(* ===================================================================== *)

Inductive jsval : Type :=
| JUndef
| JNull
| JBool (b : bool)
| JStr (s : string).

Definition jsval_eqb (a b : jsval) : bool :=
  match a, b with
  | JUndef, JUndef => true
  | JNull, JNull => true
  | JBool x, JBool y => Bool.eqb x y
  | JStr x, JStr y => String.eqb x y
  | _, _ => false
  end.

(** [v == null]: true of [null] and [undefined] only. *)
Definition nullish (v : jsval) : bool :=
  match v with
  | JUndef | JNull => true
  | _ => false
  end.

(** ToBoolean. *)
Definition truthy (v : jsval) : bool :=
  match v with
  | JUndef | JNull => false
  | JBool b => b
  | JStr s => negb (String.eqb s "")
  end.

(** ToString, as used by template literals and by property keys. *)
Definition to_string (v : jsval) : string :=
  match v with
  | JUndef => "undefined"
  | JNull => "null"
  | JBool true => "true"
  | JBool false => "false"
  | JStr s => s
  end.

(* ===================================================================== *)
(** ** Own properties of an ordinary object

    An object is the list of its own enumerable properties in the order
    [for-in] and [Object.keys] enumerate them: array-index keys first, in
    ascending numeric order, then the other keys in creation order.  The
    order is kept because the loops of the constructor write over what
    earlier iterations wrote: which inverse field is left under a name
    depends on it. *)
(* ===================================================================== *)

Definition digit_of (c : ascii) : option N :=
  let n := N_of_ascii c in
  if ((48 <=? n) && (n <=? 57))%N then Some (n - 48)%N else None.

Fixpoint parse_digits (s : string) (acc : N) : option N :=
  match s with
  | EmptyString => Some acc
  | String c s' =>
      match digit_of c with
      | Some d => parse_digits s' (acc * 10 + d)%N
      | None => None
      end
  end.

(** The canonical decimal strings of 0 .. 2^32 - 2. *)
Definition array_index (k : string) : option N :=
  match k with
  | EmptyString => None
  | String c rest =>
      if (Ascii.eqb c "0" && negb (String.eqb rest ""))%bool then None
      else match parse_digits k 0 with
           | Some n => if (n <? 4294967295)%N then Some n else None
           | None => None
           end
  end.

Section Props.
Context {V : Type}.

Definition keys (o : list (string * V)) : list string := map fst o.

Fixpoint own_get (o : list (string * V)) (k : string) : option V :=
  match o with
  | [] => None
  | (k', v) :: o' => if String.eqb k' k then Some v else own_get o' k
  end.

Definition has_own (o : list (string * V)) (k : string) : bool :=
  match own_get o k with
  | Some _ => true
  | None => false
  end.

Fixpoint replace_own (o : list (string * V)) (k : string) (v : V)
  : list (string * V) :=
  match o with
  | [] => []
  | (k', v') :: o' =>
      if String.eqb k' k then (k', v) :: o' else (k', v') :: replace_own o' k v
  end.

(** Does a new key [k] come before the existing key [k']? *)
Definition enumerated_before (k k' : string) : bool :=
  match array_index k, array_index k' with
  | Some n, Some n' => (n <? n')%N
  | Some _, None => true
  | None, _ => false
  end.

Fixpoint insert_own (o : list (string * V)) (k : string) (v : V)
  : list (string * V) :=
  match o with
  | [] => [(k, v)]
  | (k', v') :: o' =>
      if enumerated_before k k' then (k, v) :: o
      else (k', v') :: insert_own o' k v
  end.

(** CreateDataProperty on an ordinary object. *)
Definition own_set (o : list (string * V)) (k : string) (v : V)
  : list (string * V) :=
  if has_own o k then replace_own o k v else insert_own o k v.

(** [o[k] = v] on an ordinary object whose prototype is
    [Object.prototype]: the key [__proto__] reaches the inherited
    setter unless the object has an own property of that name, and then
    no own property is created. *)
Definition assign (o : list (string * V)) (k : string) (v : V)
  : list (string * V) :=
  if (String.eqb k "__proto__" && negb (has_own o k))%bool then o
  else own_set o k v.

(** The object an object literal or a JSON text with these members, in
    this order, denotes. *)
Definition object_of (members : list (string * V)) : list (string * V) :=
  fold_left (fun o m => own_set o (fst m) (snd m)) members [].

End Props.

(** The property names every ordinary object inherits from
    [Object.prototype]. *)
Definition Object_prototype : list string :=
  [ "constructor"; "__proto__"; "hasOwnProperty"; "isPrototypeOf";
    "propertyIsEnumerable"; "toLocaleString"; "toString"; "valueOf";
    "__defineGetter__"; "__defineSetter__"; "__lookupGetter__";
    "__lookupSetter__" ].

Definition inherited (k : string) : bool :=
  existsb (String.eqb k) Object_prototype.

(* ===================================================================== *)
(** ** The store *)
(* ===================================================================== *)

Definition loc := nat.

(** A field descriptor object: attribute name to value.  A field of a
    schema is an object here, as the class documentation declares it; a
    configuration whose field or collection is [null] or a primitive
    value, on which lines 45 and 53-54 throw a TypeError, is not a
    value of this development. *)
Definition descriptor := list (string * jsval).

(** A collection object (field name to descriptor object) or a schema
    object (collection name to collection object). *)
Definition props := list (string * loc).

Record heap : Type := {
  fields_of : list descriptor;
  collections_of : list props;
  schemas_of : list props
}.

Definition the_field (h : heap) (l : loc) : descriptor := nth l (fields_of h) [].
Definition the_collection (h : heap) (l : loc) : props := nth l (collections_of h) [].
Definition the_schema (h : heap) (l : loc) : props := nth l (schemas_of h) [].

Fixpoint update {A : Type} (l : list A) (i : nat) (x : A) : list A :=
  match l, i with
  | [], _ => []
  | _ :: l', O => x :: l'
  | y :: l', S i' => y :: update l' i' x
  end.

(* ===================================================================== *)
(** ** Outcomes and the state monad of the methods *)
(* ===================================================================== *)

Inductive exn : Type :=
| TypeError                      (* raised by the engine *)
| JsError (message : string)     (* [new Error(message)] *)
| Rejected (reason : string).    (* an error handed over by the mysql driver *)

Inductive outcome (A : Type) : Type :=
| Returned (a : A)
| Thrown (e : exn)
| Builtin (k : string).
    (* the run reached the object [Object.prototype] holds under [k].
       The code goes on there: line 69 writes the inverse field on that
       built-in object ([Object], [Object.prototype] or one of its
       methods).  What a run does after such a write is not described
       here; [own_targets] below is the condition on a document under
       which no run reaches a built-in object. *)

Arguments Returned {A} a.
Arguments Thrown {A} e.
Arguments Builtin {A} k.

(** A computation over a state [S].  The state outlives an exception:
    what was written before it was thrown stays written. *)
Definition M (S A : Type) : Type := S -> S * outcome A.

Definition ret {S A : Type} (a : A) : M S A := fun s => (s, Returned a).

Definition bind {S A B : Type} (c : M S A) (k : A -> M S B) : M S B :=
  fun s =>
    match c s with
    | (s', Returned a) => k a s'
    | (s', Thrown e) => (s', Thrown e)
    | (s', Builtin b) => (s', Builtin b)
    end.

Definition throw {S A : Type} (e : exn) : M S A := fun s => (s, Thrown e).
Definition leave {S A : Type} (k : string) : M S A := fun s => (s, Builtin k).
Definition gets {S A : Type} (f : S -> A) : M S A := fun s => (s, Returned (f s)).
Definition modify {S : Type} (f : S -> S) : M S unit := fun s => (f s, Returned tt).

Declare Scope js_scope.
Delimit Scope js_scope with js.
Notation "x <- c ;; k" := (bind c (fun x => k))
  (at level 61, c at next level, right associativity) : js_scope.
Notation "c ;; k" := (bind c (fun _ => k))
  (at level 61, right associativity) : js_scope.
Local Open Scope js_scope.

(** [for (let x of xs)], and [for (let x in o)] once the keys of [o] have
    been taken. *)
Fixpoint for_each {S A : Type} (xs : list A) (body : A -> M S unit) : M S unit :=
  match xs with
  | [] => ret tt
  | x :: xs' => body x ;; for_each xs' body
  end.

Definition when {S : Type} (b : bool) (c : M S unit) : M S unit :=
  if b then c else ret tt.

(* ===================================================================== *)
(** ** Store operations *)
(* ===================================================================== *)

Definition alloc_field (d : descriptor) : M heap loc :=
  fun h => ({| fields_of := fields_of h ++ [d];
               collections_of := collections_of h;
               schemas_of := schemas_of h |},
            Returned (List.length (fields_of h))).

Definition alloc_collection (c : props) : M heap loc :=
  fun h => ({| fields_of := fields_of h;
               collections_of := collections_of h ++ [c];
               schemas_of := schemas_of h |},
            Returned (List.length (collections_of h))).

Definition alloc_schema (s : props) : M heap loc :=
  fun h => ({| fields_of := fields_of h;
               collections_of := collections_of h;
               schemas_of := schemas_of h ++ [s] |},
            Returned (List.length (schemas_of h))).

Definition write_field (l : loc) (d : descriptor) (h : heap) : heap :=
  {| fields_of := update (fields_of h) l d;
     collections_of := collections_of h;
     schemas_of := schemas_of h |}.

Definition write_collection (l : loc) (c : props) (h : heap) : heap :=
  {| fields_of := fields_of h;
     collections_of := update (collections_of h) l c;
     schemas_of := schemas_of h |}.

(** [o[k]] used as an object: an own property, else what
    [Object.prototype] holds, else [undefined], whose use as an object
    throws.  Where the name is one [Object.prototype] holds, the code
    goes on with the built-in object (line 69 assigns a property of
    it); the run is followed no further here and ends in [Builtin]. *)
Definition member {S V : Type} (o : list (string * V)) (k : string) : M S V :=
  match own_get o k with
  | Some l => ret l
  | None => if inherited k then leave k else throw TypeError
  end.

(** [d.name] for a descriptor [d] *)
Definition attr_of (d : descriptor) (name : string) : jsval :=
  match own_get d name with
  | Some v => v
  | None => JUndef
  end.

(** [field.name] *)
Definition attr (field : loc) (name : string) : M heap jsval :=
  gets (fun h => attr_of (the_field h field) name).

(** [field.name = v] *)
Definition set_attr (field : loc) (name : string) (v : jsval) : M heap unit :=
  modify (fun h => write_field field (assign (the_field h field) name v) h).

(** [collection[name] = field] *)
Definition set_member (collection : loc) (name : string) (field : loc)
  : M heap unit :=
  modify (fun h =>
    write_collection collection (assign (the_collection h collection) name field) h).

(* ===================================================================== *)
(** ** JSON.parse(JSON.stringify(schema)) *)
(* ===================================================================== *)

(** A JSON text, as the sequence of members of each of its objects. *)
Definition json_object := list (string * descriptor).
Definition json := list (string * json_object).

(** SerializeJSONObject: the own keys are enumerated and each value is
    read with [Get]; members whose value is [undefined] are left out. *)
Definition stringify_field (d : descriptor) : list (string * jsval) :=
  flat_map (fun k => match own_get d k with
                     | Some JUndef | None => []
                     | Some v => [(k, v)]
                     end) (keys d).

Definition stringify_collection (h : heap) (c : props) : json_object :=
  flat_map (fun k => match own_get c k with
                     | Some l => [(k, stringify_field (the_field h l))]
                     | None => []
                     end) (keys c).

Definition JSON_stringify (h : heap) (schema : loc) : json :=
  flat_map (fun k => match own_get (the_schema h schema) k with
                     | Some l => [(k, stringify_collection h (the_collection h l))]
                     | None => []
                     end) (keys (the_schema h schema)).

Fixpoint parse_members (ms : json_object) (acc : props) : M heap props :=
  match ms with
  | [] => ret acc
  | (k, d) :: ms' =>
      l <- alloc_field (object_of d) ;;
      parse_members ms' (own_set acc k l)
  end.

Fixpoint parse_collections (cs : json) (acc : props) : M heap props :=
  match cs with
  | [] => ret acc
  | (k, ms) :: cs' =>
      c <- parse_members ms [] ;;
      l <- alloc_collection c ;;
      parse_collections cs' (own_set acc k l)
  end.

(** Every object of the text is a new object. *)
Definition JSON_parse (text : json) : M heap loc :=
  s <- parse_collections text [] ;;
  alloc_schema s.

(* ===================================================================== *)
(** ** class Restify *)
(* ===================================================================== *)

Definition ONE_TO_ONE := "OneToOne".
Definition ONE_TO_MANY := "OneToMany".
Definition MANY_TO_ONE := "ManyToOne".
Definition MANY_TO_MANY := "ManyToMany".

Record Database : Type := {
  host : jsval;
  user : jsval;
  pass : jsval;
  db : jsval
}.

Record Config : Type := {
  database : Database;
  schema : loc
}.

(** The own properties of an instance.  [conn] is what [this.conn]
    evaluates to: [None] is [undefined]. *)
Record Restify : Type := {
  _database : Database;
  _collections : loc;
  conn : option nat
}.

(** [invRelation(relation)] (lines 140-152): [switch] compares with
    [===]. *)
Definition invRelation (relation : jsval) : outcome jsval :=
  if jsval_eqb relation (JStr ONE_TO_ONE) then Returned relation
  else if jsval_eqb relation (JStr MANY_TO_MANY) then Returned relation
  else if jsval_eqb relation (JStr ONE_TO_MANY) then Returned (JStr MANY_TO_ONE)
  else if jsval_eqb relation (JStr MANY_TO_ONE) then Returned (JStr ONE_TO_MANY)
  else Thrown (JsError ("Undefined relation " ++ to_string relation ++ ".")).

Definition lift {S A : Type} (o : outcome A) : M S A := fun s => (s, o).

(** The object literals of the constructor. *)
Definition id_field : descriptor :=
  [("type", JStr "int"); ("nullable", JStr "false")].

Definition derived_field (collectionName : string) (inverse : jsval)
  (fieldName : string) : descriptor :=
  [("type", JStr collectionName);
   ("nullable", JBool false);
   ("relation", inverse);
   ("as", JStr fieldName)].

(** The first loop (lines 42-61): add ID field and mark master relation.
    [mark_field] is the body of its inner loop, [mark_collection] the
    body of the outer one.  A [for-in] loop visits the keys its object
    has when the loop starts, and reads the value under each key when it
    comes to it. *)
Definition mark_field (collection : loc) (fieldName : string) : M heap unit :=
  field <- (c <- gets (fun h => the_collection h collection) ;; member c fieldName) ;;
  nullable <- attr field "nullable" ;;
  when (nullish nullable) (set_attr field "nullable" (JBool true)) ;;
  relation <- attr field "relation" ;;
  when (negb (nullish relation)) (set_attr field "master" (JBool true)).

Definition mark_collection (this_collections : loc) (collectionName : string)
  : M heap unit :=
  collection <- (s <- gets (fun h => the_schema h this_collections) ;;
                 member s collectionName) ;;
  id <- alloc_field id_field ;;
  set_member collection "_id" id ;;
  fieldNames <- gets (fun h => keys (the_collection h collection)) ;;
  for_each fieldNames (mark_field collection).

(** The second loop (lines 63-77), inner body and outer body.  The
    right-hand side of the assignment is evaluated before the target
    [this._collections[field.type]] is used as an object, as V8 does;
    the order only decides which error is thrown when both the relation
    and the target are wrong.  A field the loop adds to the collection
    it is enumerating has no [master], so that visiting it or not makes
    no difference. *)
Definition link_field (this_collections : loc) (collectionName : string)
  (collection : loc) (fieldName : string) : M heap unit :=
  field <- (c <- gets (fun h => the_collection h collection) ;; member c fieldName) ;;
  master <- attr field "master" ;;
  when (truthy master)
    (type <- attr field "type" ;;
     as_ <- attr field "as" ;;
     relation <- attr field "relation" ;;
     inverse <- lift (invRelation relation) ;;
     derived <- alloc_field (derived_field collectionName inverse fieldName) ;;
     target <- (s <- gets (fun h => the_schema h this_collections) ;;
                member s (to_string type)) ;;
     set_member target (to_string as_) derived).

Definition link_collection (this_collections : loc) (collectionName : string)
  : M heap unit :=
  collection <- (s <- gets (fun h => the_schema h this_collections) ;;
                 member s collectionName) ;;
  fieldNames <- gets (fun h => keys (the_collection h collection)) ;;
  for_each fieldNames (link_field this_collections collectionName collection).

(** [constructor(config)] (lines 28-78). *)
Definition constructor (config : Config) : M heap Restify :=
  let this_database := {| host := host (database config);
                          user := user (database config);
                          pass := pass (database config);
                          db := db (database config) |} in
  text <- gets (fun h => JSON_stringify h (schema config)) ;;
  this_collections <- JSON_parse text ;;
  names <- gets (fun h => keys (the_schema h this_collections)) ;;
  for_each names (mark_collection this_collections) ;;
  names' <- gets (fun h => keys (the_schema h this_collections)) ;;
  for_each names' (link_collection this_collections) ;;
  ret {| _database := this_database;
         _collections := this_collections;
         conn := None |}.

(** [Object.keys(this._collections)] *)
Definition collections (this : Restify) : M heap (list string) :=
  gets (fun h => keys (the_schema h (_collections this))).

(** [Object.keys(this._collections[collection])].  The objects
    [Object.prototype] holds have no enumerable own property. *)
Definition fields (this : Restify) (collection : string) : M heap (list string) :=
  fun h =>
    match own_get (the_schema h (_collections this)) collection with
    | Some c => (h, Returned (keys (the_collection h c)))
    | None => if inherited collection then (h, Returned [])
              else (h, Thrown TypeError)
    end.

(* ===================================================================== *)
(** ** The mysql driver and class Connection

    The driver is a collaborator.  Its escaping functions and the
    answers of the database server are variables of this section; a run
    of [reset] or [sync] is described by the sequence of calls it makes
    on the driver. *)
(* ===================================================================== *)

Inductive sqlarg : Type :=
| ArgNumber (n : nat)
| ArgValue (v : jsval).

Record row : Type := { table_name : string }.

Inductive event : Type :=
| Created (c : nat) (settings : Database)   (* mysql.createConnection *)
| Logged (line : string)                    (* logger.debug *)
| Queried (c : nat) (sql : string) (ok : bool)
| Ended (c : nat) (ok : bool).

Definition is_created (e : event) : bool :=
  match e with
  | Created _ _ => true
  | _ => false
  end.

Record Connection : Type := {
  restify : Restify;
  mysql_conn : nat
}.

Section Mysql.
Variable escapeId : string -> string.
Variable escape : sqlarg -> string.

(** What the server answers to a query and to the end of a connection,
    given what happened before: an error or the rows. *)
Variable query : list event -> nat -> string -> string + list row.
Variable quit : list event -> nat -> option string.

Definition stmtCreateTable (table : string) : string :=
  "CREATE TABLE IF NOT EXISTS " ++ escapeId table ++ " ("
    ++ "id int, PRIMARY KEY(id)"
    ++ ");".

Definition stmtSelectTableName (this : Restify) : string :=
  "SELECT table_name "
    ++ "FROM information_schema.tables "
    ++ "WHERE table_schema=" ++ escape (ArgValue (db (_database this))) ++ ";".

Definition stmtSetForeignKeyCheck (state : bool) : string :=
  "SET FOREIGN_KEY_CHECKS=" ++ escape (ArgNumber (if state then 1 else 0)) ++ ";".

Definition stmtDropTable (table : string) : string :=
  "DROP TABLE " ++ escapeId table ++ ";".

(** [this.conn.escapeId(id)] and [this.conn.escape(val)] *)
Definition escId (this : Restify) (id : string) : outcome string :=
  match conn this with
  | Some _ => Returned (escapeId id)
  | None => Thrown TypeError
  end.

Definition escVal (this : Restify) (val : sqlarg) : outcome string :=
  match conn this with
  | Some _ => Returned (escape val)
  | None => Thrown TypeError
  end.

(** [new Connection(this)] *)
Definition connect (this : Restify) : M (list event) Connection :=
  fun t =>
    let c := List.length (filter is_created t) in
    (t ++ [Created c (_database this)],
     Returned {| restify := this; mysql_conn := c |}).

Definition exec (this : Connection) (sql : string) : M (list event) (list row) :=
  fun t =>
    let t' := t ++ [Logged ("SQL> " ++ sql)] in
    match query t' (mysql_conn this) sql with
    | inl err => (t' ++ [Queried (mysql_conn this) sql false], Thrown (Rejected err))
    | inr rows => (t' ++ [Queried (mysql_conn this) sql true], Returned rows)
    end.

Definition end_ (this : Connection) : M (list event) unit :=
  fun t =>
    match quit t (mysql_conn this) with
    | Some err => (t ++ [Ended (mysql_conn this) false], Thrown (Rejected err))
    | None => (t ++ [Ended (mysql_conn this) true], Returned tt)
    end.

Definition reset (this : Restify) : M (list event) unit :=
  conn <- connect this ;;
  tableNameRecords <- exec conn (stmtSelectTableName this) ;;
  exec conn (stmtSetForeignKeyCheck false) ;;
  for_each tableNameRecords
    (fun record => exec conn (stmtDropTable (table_name record)) ;; ret tt) ;;
  exec conn (stmtSetForeignKeyCheck true) ;;
  end_ conn.

(** [h] is the store [this._collections] is read from. *)
Definition sync (h : heap) (this : Restify) (update : jsval)
  : M (list event) unit :=
  conn <- connect this ;;
  for_each (keys (the_schema h (_collections this)))
    (fun collectionName => exec conn (stmtCreateTable collectionName) ;; ret tt) ;;
  end_ conn.

End Mysql.

(* ===================================================================== *)
(** ** The schema as a value

    What the store holds under a schema object, read as one value, and
    the two loops of the constructor acting on such a value.  The
    constructor is shown below to act on the store as [doc_resolve] acts
    on the value of the copy it makes. *)
(* ===================================================================== *)

Definition view_collection (h : heap) (c : props) : json_object :=
  map (fun e => (fst e, the_field h (snd e))) c.

Definition view (h : heap) (s : loc) : json :=
  map (fun e => (fst e, view_collection h (the_collection h (snd e))))
      (the_schema h s).

(** [schema[A][f]] *)
Definition field_at (h : heap) (s : loc) (A f : string) : option descriptor :=
  match own_get (the_schema h s) A with
  | Some c =>
      match own_get (the_collection h c) f with
      | Some l => Some (the_field h l)
      | None => None
      end
  | None => None
  end.

Fixpoint alter_own {V : Type} (o : list (string * V)) (k : string) (g : V -> V)
  : list (string * V) :=
  match o with
  | [] => []
  | (k', v) :: o' =>
      if String.eqb k' k then (k', g v) :: o' else (k', v) :: alter_own o' k g
  end.

Definition collection_at (t : json) (A : string) : json_object :=
  match own_get t A with
  | Some c => c
  | None => []
  end.

Definition descriptor_at (t : json) (A f : string) : descriptor :=
  match own_get (collection_at t A) f with
  | Some d => d
  | None => []
  end.

Definition put_member (A k : string) (d : descriptor) (t : json) : json :=
  alter_own t A (fun c => assign c k d).

Definition put_attr (A f name : string) (v : jsval) (t : json) : json :=
  alter_own t A (fun c => alter_own c f (fun d => assign d name v)).

(** The value [JSON.parse] builds from a text. *)
Definition parse_value (text : json) : json :=
  object_of
    (map (fun c =>
            (fst c, object_of (map (fun m => (fst m, object_of (snd m))) (snd c))))
         text).

(** The value of the copy the constructor makes of [config.schema]. *)
Definition document (h : heap) (config : Config) : json :=
  parse_value (JSON_stringify h (schema config)).

Definition doc_mark_field (A f : string) : M json unit :=
  (c <- gets (fun t => collection_at t A) ;; @member json descriptor c f) ;;
  nullable <- gets (fun t => attr_of (descriptor_at t A f) "nullable") ;;
  when (nullish nullable) (modify (put_attr A f "nullable" (JBool true))) ;;
  relation <- gets (fun t => attr_of (descriptor_at t A f) "relation") ;;
  when (negb (nullish relation)) (modify (put_attr A f "master" (JBool true))).

Definition doc_mark_collection (A : string) : M json unit :=
  (t <- gets (fun t => t) ;; @member json json_object t A) ;;
  modify (put_member A "_id" id_field) ;;
  fieldNames <- gets (fun t => keys (collection_at t A)) ;;
  for_each fieldNames (doc_mark_field A).

Definition doc_link_field (A f : string) : M json unit :=
  (c <- gets (fun t => collection_at t A) ;; @member json descriptor c f) ;;
  master <- gets (fun t => attr_of (descriptor_at t A f) "master") ;;
  when (truthy master)
    (type <- gets (fun t => attr_of (descriptor_at t A f) "type") ;;
     as_ <- gets (fun t => attr_of (descriptor_at t A f) "as") ;;
     relation <- gets (fun t => attr_of (descriptor_at t A f) "relation") ;;
     inverse <- lift (invRelation relation) ;;
     (t <- gets (fun t => t) ;; @member json json_object t (to_string type)) ;;
     modify (put_member (to_string type) (to_string as_) (derived_field A inverse f))).

Definition doc_link_collection (A : string) : M json unit :=
  (t <- gets (fun t => t) ;; @member json json_object t A) ;;
  fieldNames <- gets (fun t => keys (collection_at t A)) ;;
  for_each fieldNames (doc_link_field A).

Definition doc_mark : M json unit :=
  names <- gets (fun t => keys t) ;;
  for_each names doc_mark_collection.

Definition doc_link : M json unit :=
  names <- gets (fun t => keys t) ;;
  for_each names doc_link_collection.

Definition doc_resolve : M json unit :=
  doc_mark ;; doc_link.

(** A field the second loop treats as a master field: its [relation] is
    set, or the document itself gives it a true [master]. *)
Definition declares_master (d : descriptor) : bool :=
  (negb (nullish (attr_of d "relation")) || truthy (attr_of d "master"))%bool.

(** Where the inverse of a master field is written:
    [this._collections[field.type][field.as]]. *)
Definition target_of (d : descriptor) : string * string :=
  (to_string (attr_of d "type"), to_string (attr_of d "as")).

Definition same_place (p q : string * string) : bool :=
  (String.eqb (fst p) (fst q) && String.eqb (snd p) (snd q))%bool.

(** The fields of a document, each with the names of its collection and
    of itself. *)
Definition entries (t : json) : list (string * string * descriptor) :=
  flat_map (fun c => map (fun m => (fst c, fst m, snd m)) (snd c)) t.

(** No master field other than [A.F] writes its inverse over [A.F] or
    over the place [p]. *)
Definition undisturbed (t : json) (A F : string) (p : string * string) : bool :=
  forallb (fun e =>
             match e with
             | (A', f', d') =>
                 (negb (declares_master d')
                  || same_place (A', f') (A, F)
                  || (negb (same_place (target_of d') p)
                      && negb (same_place (target_of d') (A, F))))%bool
             end) (entries t).

Definition recognized (relation : jsval) : bool :=
  match invRelation relation with
  | Returned _ => true
  | _ => false
  end.

(** Every master field has one of the four relation kinds and a [type]
    that names a collection of the document. *)
Definition well_linked (t : json) : bool :=
  forallb (fun e =>
             match e with
             | (_, _, d) =>
                 (negb (declares_master d)
                  || (recognized (attr_of d "relation")
                      && has_own t (to_string (attr_of d "type"))))%bool
             end) (entries t).

(** Stores and configurations to run the methods on: the store after the
    object literal [text] has been evaluated in an empty store. *)
Definition empty_heap : heap :=
  {| fields_of := []; collections_of := []; schemas_of := [] |}.

Definition literal_heap (text : json) : heap :=
  fst (JSON_parse text empty_heap).

Definition literal_config (text : json) : Config :=
  {| database := {| host := JStr "localhost"; user := JStr "root";
                    pass := JStr ""; db := JStr "test" |};
     schema := match snd (JSON_parse text empty_heap) with
               | Returned l => l
               | _ => 0
               end |}.

Definition relation_kinds : list jsval :=
  [JStr ONE_TO_ONE; JStr ONE_TO_MANY; JStr MANY_TO_ONE; JStr MANY_TO_MANY].

(** ** Drivers and documents to run the methods on *)


Definition calm (t : list event) (c : nat) : option string := None.

Definition bare (id : string) : string := id.

Definition plain (a : sqlarg) : string :=
  match a with
  | ArgNumber 0 => "0"
  | ArgNumber _ => "1"
  | ArgValue v => "'" ++ to_string v ++ "'"
  end.

Definition one_collection : json := [("User", [])].

Definition constructed (text : json) : heap * outcome Restify :=
  constructor (literal_config text) (literal_heap text).

Definition one_collection_service : Restify :=
  {| _database := database (literal_config one_collection);
     _collections := 1;
     conn := None |}.


(** ** Reading a schema value *)

Definition map_values {V W : Type} (g : V -> W) (o : list (string * V))
  : list (string * W) :=
  map (fun e => (fst e, g (snd e))) o.


(** [t[A][f]] *)
Definition lookup (t : json) (A f : string) : option descriptor :=
  own_get (collection_at t A) f.

(** What the first loop does to one descriptor. *)
Definition default_nullable (d : descriptor) : descriptor :=
  if nullish (attr_of d "nullable") then assign d "nullable" (JBool true) else d.

Definition mark_master (d : descriptor) : descriptor :=
  if negb (nullish (attr_of d "relation")) then assign d "master" (JBool true)
  else d.

Definition mark (d : descriptor) : descriptor :=
  mark_master (default_nullable d).

(** What a member access that finds no own property [k] results in. *)
Definition missing {S A : Type} (k : string) (s : S) : S * outcome A :=
  (s, if inherited k then Builtin k else Thrown TypeError).

(** What the first loop leaves under the collection it has visited. *)
Definition marked (x : option descriptor) (f : string) : option descriptor :=
  if String.eqb f "_id" then Some id_field else option_map mark x.

(** [t'] has the collections of [t] and at least its fields. *)
Definition grows (t t' : json) : Prop :=
  (forall A, has_own t' A = has_own t A) /\
  (forall A f, lookup t A f <> None -> lookup t' A f <> None).

(** In [t], a state of the second loop started in [t1], every field
    with a true [master] is a field of [t1] that has not been written
    over. *)
Definition settled (t1 t : json) : Prop :=
  grows t1 t /\
  forall A f d,
    lookup t A f = Some d -> truthy (attr_of d "master") = true ->
    lookup t1 A f = Some d.


(** Every master field other than [A.F] has one of the four relation
    kinds and a [type] that names a collection of the document, and does
    not write its inverse over [A.F]. *)
Definition others_well_linked (t : json) (A F : string) : bool :=
  forallb (fun e =>
             match e with
             | (A', f', d) =>
                 (negb (declares_master d)
                  || same_place (A', f') (A, F)
                  || (recognized (attr_of d "relation")
                      && has_own t (to_string (attr_of d "type"))
                      && negb (same_place (target_of d) (A, F))))%bool
             end) (entries t).

(** ** The store and the value it holds *)

(** [h] has every object of [b], as it is in [b]. *)
Definition extends (b h : heap) : Prop :=
  (exists x, fields_of h = fields_of b ++ x) /\
  (exists x, collections_of h = collections_of b ++ x) /\
  (exists x, schemas_of h = schemas_of b ++ x).

Definition locs_of (o : props) : list loc := map snd o.

(** The value under the properties [sc] of a schema object. *)
Definition view_of (h : heap) (sc : props) : json :=
  map (fun e => (fst e, view_collection h (the_collection h (snd e)))) sc.

(** Every reference under the schema object [s] is to an object of the
    store. *)
Definition closed (h : heap) (s : loc) : bool :=
  (Nat.ltb s (List.length (schemas_of h))
   && forallb
        (fun l =>
           Nat.ltb l (List.length (collections_of h))
           && forallb (fun x => Nat.ltb x (List.length (fields_of h)))
                (locs_of (the_collection h l)))
        (locs_of (the_schema h s)))%bool.

(** The objects under the properties [sc] of a schema object hold the
    value [t]; they are not objects of [b], and no object is reached
    twice. *)
Record holds (b h : heap) (sc : props) (t : json) : Prop := {
  holds_value : view_of h sc = t;
  holds_extends : extends b h;
  holds_collections :
    forall l, In l (locs_of sc) ->
              List.length (collections_of b) <= l < List.length (collections_of h);
  holds_fields :
    forall l x, In l (locs_of sc) -> In x (locs_of (the_collection h l)) ->
                List.length (fields_of b) <= x < List.length (fields_of h);
  holds_collections_apart : NoDup (locs_of sc);
  holds_fields_apart :
    forall l, In l (locs_of sc) -> NoDup (locs_of (the_collection h l));
  holds_fields_disjoint :
    forall l1 l2 x, In l1 (locs_of sc) -> In l2 (locs_of sc) -> l1 <> l2 ->
                    In x (locs_of (the_collection h l1)) ->
                    ~ In x (locs_of (the_collection h l2))
}.

Definition represents (b h : heap) (s : loc) (t : json) : Prop :=
  List.length (schemas_of b) <= s < List.length (schemas_of h) /\
  holds b h (the_schema h s) t.

(** The store [h] holds the value [t] under the schema object [s], whose
    properties are [sc]. *)
Definition models (b : heap) (s : loc) (sc : props) (h : heap) (t : json) : Prop :=
  the_schema h s = sc /\ holds b h sc t.

(** ** Documents to run the constructor on *)

(** The example of the specification. *)
Definition user_profile : json :=
  [("User", [("name", [("type", JStr "string")]);
             ("profile", [("type", JStr "Profile");
                          ("relation", JStr "OneToOne");
                          ("as", JStr "owner")])]);
   ("Profile", [("bio", [("type", JStr "string")])])].


(** Two master fields whose inverses are to have the same name. *)
Definition shared_target : json :=
  [("User", [("a", [("type", JStr "Profile");
                    ("relation", JStr "OneToOne");
                    ("as", JStr "owner")]);
             ("b", [("type", JStr "Profile");
                    ("relation", JStr "OneToMany");
                    ("as", JStr "owner")])]);
   ("Profile", [])].

(** A master field whose inverse is to have the name of a declared
    field. *)
Definition name_conflict : json :=
  [("User", [("profile", [("type", JStr "Profile");
                          ("relation", JStr "OneToOne");
                          ("as", JStr "bio")])]);
   ("Profile", [("bio", [("type", JStr "string")])])].

(** A master field whose [type] names no collection. *)
Definition dangling_type : json :=
  [("User", [("friend", [("type", JStr "Person");
                         ("relation", JStr "OneToOne");
                         ("as", JStr "friendOf")])])].

(** The same, after a master field whose inverse is written over it. *)
Definition overwritten_master : json :=
  [("User", [("self", [("type", JStr "User");
                       ("relation", JStr "OneToOne");
                       ("as", JStr "friend")]);
             ("friend", [("type", JStr "Person");
                         ("relation", JStr "OneToOne");
                         ("as", JStr "friendOf")])])].

(** ** The calls of [reset] and [sync] *)

(** The calls one [exec] makes on connection [c]: the statement is
    logged, then sent. *)
Definition exec_events (c : nat) (sql : string) (ok : bool) : list event :=
  [Logged ("SQL> " ++ sql); Queried c sql ok].

(** The calls of a sequence of statements the server accepts. *)
Definition accepted (c : nat) (stmts : list string) : list event :=
  flat_map (fun sql => exec_events c sql true) stmts.

(** A run [r] that, from the trace [opened] on, sends the statements
    [stmts] on connection [c], in order, each logged before it is sent.
    Either the server accepts every one of them, the connection is ended
    after the last one, and the run returns (or throws the error of
    [end], when ending fails); or the run stops at the first statement
    the server rejects: it throws the error the server answered, the
    statements after it are not sent and the connection is not ended. *)
Definition sends_then_ends
  (query : list event -> nat -> string -> string + list row)
  (quit : list event -> nat -> option string)
  (c : nat) (opened : list event) (stmts : list string)
  (r : list event * outcome unit) : Prop :=
  match quit (opened ++ accepted c stmts) c with
  | None => r = (opened ++ accepted c stmts ++ [Ended c true], Returned tt)
  | Some err =>
      r = (opened ++ accepted c stmts ++ [Ended c false], Thrown (Rejected err))
  end \/
  exists pre s post err,
    stmts = pre ++ s :: post /\
    query (opened ++ accepted c pre ++ [Logged ("SQL> " ++ s)]) c s = inl err /\
    r = (opened ++ accepted c pre ++ exec_events c s false, Thrown (Rejected err)).

(** ** Documents whose inverse fields are written in the schema *)

(** No master field has for [type] a name the schema object only
    inherits from [Object.prototype]: for every master field,
    [this._collections[field.type]] is a collection of the document or
    [undefined], never a built-in object. *)
Definition own_targets (t : json) : bool :=
  forallb (fun e =>
             match e with
             | (_, _, d) =>
                 (negb (declares_master d)
                  || has_own t (to_string (attr_of d "type"))
                  || negb (inherited (to_string (attr_of d "type"))))%bool
             end) (entries t).

(** ** Why the second loop stops *)

(** The outcome [o] of the second loop, started in [t1], is that of a
    master field of [t1]: the error of [invRelation], or what the use
    of [this._collections[field.type]] as an object results in when
    [type] names no collection. *)
Definition stopped_at (t1 : json) (o : outcome unit) : Prop :=
  exists A f d,
    lookup t1 A f = Some d /\
    truthy (attr_of d "master") = true /\
    ((exists e, invRelation (attr_of d "relation") = Thrown e /\ o = Thrown e) \/
     (recognized (attr_of d "relation") = true /\
      has_own t1 (fst (target_of d)) = false /\
      o = if inherited (fst (target_of d)) then Builtin (fst (target_of d))
          else Thrown TypeError)).

(** A server that accepts every statement and answers [rows]. *)
Definition answering (rows : list row) (t : list event) (c : nat) (sql : string)
  : string + list row :=
  inr rows.
(* ===================================================================== *)
(** * Properties *)
(* ===================================================================== *)

(** ** The relation algebra *)

Lemma jsval_eqb_eq (a b : jsval) : jsval_eqb a b = true <-> a = b.
Proof.
  destruct a, b; simpl; split; intro H; try discriminate; try reflexivity.
  - apply Bool.eqb_prop in H. now subst.
  - injection H as ->. apply Bool.eqb_reflx.
  - apply String.eqb_eq in H. now subst.
  - injection H as ->. apply String.eqb_refl.
Qed.

Lemma jsval_eqb_neq (a b : jsval) : a <> b -> jsval_eqb a b = false.
Proof.
  intro H. destruct (jsval_eqb a b) eqn:E; [|reflexivity].
  apply jsval_eqb_eq in E. contradiction.
Qed.

(** C3.  [invRelation] maps OneToOne to OneToOne, ManyToMany to
    ManyToMany, OneToMany to ManyToOne and ManyToOne to OneToMany; on each
    of the four kinds applying it twice gives the kind back; on every
    other value it throws the error of its default branch, the
    specification's UnknownRelationKind. *)
Theorem invRelation_spec :
  invRelation (JStr ONE_TO_ONE) = Returned (JStr ONE_TO_ONE) /\
  invRelation (JStr MANY_TO_MANY) = Returned (JStr MANY_TO_MANY) /\
  invRelation (JStr ONE_TO_MANY) = Returned (JStr MANY_TO_ONE) /\
  invRelation (JStr MANY_TO_ONE) = Returned (JStr ONE_TO_MANY) /\
  (forall k, In k relation_kinds ->
     exists k', invRelation k = Returned k' /\ invRelation k' = Returned k) /\
  (forall v, ~ In v relation_kinds ->
     invRelation v
     = Thrown (JsError ("Undefined relation " ++ to_string v ++ ".")%string)).
Proof.
  do 4 (split; [reflexivity |]). split.
  - intros k Hk. simpl in Hk.
    destruct Hk as [<- | [<- | [<- | [<- | []]]]];
      eexists; split; reflexivity.
  - intros v Hv. unfold invRelation.
    rewrite !jsval_eqb_neq; [reflexivity | | | |];
      intro E; apply Hv; subst v; simpl; tauto.
Qed.

Lemma invRelation_spec_witness :
  (In (JStr "OneToMany") relation_kinds /\
   exists k', invRelation (JStr "OneToMany") = Returned k' /\
              invRelation k' = Returned (JStr "OneToMany")) /\
  (~ In (JStr "Sibling") relation_kinds /\
   invRelation (JStr "Sibling") = Thrown (JsError "Undefined relation Sibling.")).
Proof.
  assert (H1 : In (JStr "OneToMany") relation_kinds) by (simpl; tauto).
  assert (H2 : ~ In (JStr "Sibling") relation_kinds)
    by (simpl; intuition discriminate).
  split; (split; [assumption |]).
  - exact (proj1 (proj2 (proj2 (proj2 (proj2 invRelation_spec)))) _ H1).
  - exact (proj2 (proj2 (proj2 (proj2 (proj2 invRelation_spec)))) _ H2).
Defined.

(** ** The statement builder *)

(** C4, as the code has it.  With an identifier escape that leaves
    [users] as it is, [stmtCreateTable "users"] is
    [CREATE TABLE IF NOT EXISTS users (id int, PRIMARY KEY(id));]: the
    column type is written [int]. *)
Theorem stmtCreateTable_users (escapeId : string -> string) :
  escapeId "users" = "users" ->
  stmtCreateTable escapeId "users"
  = "CREATE TABLE IF NOT EXISTS users (id int, PRIMARY KEY(id));".
Proof.
  intro H. unfold stmtCreateTable. rewrite H. reflexivity.
Qed.

Lemma stmtCreateTable_users_witness :
  (fun id : string => id) "users" = "users" /\
  stmtCreateTable (fun id => id) "users"
  = "CREATE TABLE IF NOT EXISTS users (id int, PRIMARY KEY(id));".
Proof.
  split; [reflexivity | apply stmtCreateTable_users; reflexivity].
Defined.

(** C4 as stated fails: the statement does not read [id INTEGER]. *)
Lemma create_table_column_is_not_INTEGER :
  (fun id : string => id) "users" = "users" /\
  stmtCreateTable (fun id => id) "users"
  <> "CREATE TABLE IF NOT EXISTS users (id INTEGER, PRIMARY KEY(id));".
Proof.
  split; [reflexivity | discriminate].
Qed.

(** ** The facade *)

(** C9.  [sync] does not look at [update]: for any two values of it, the
    same calls are made on the driver, in the same order, with the same
    result. *)
Theorem sync_ignores_update
  (escapeId : string -> string)
  (query : list event -> nat -> string -> string + list row)
  (quit : list event -> nat -> option string)
  (h : heap) (this : Restify) (update update' : jsval) (t : list event) :
  sync escapeId query quit h this update t
  = sync escapeId query quit h this update' t.
Proof. reflexivity. Qed.

(** ** Connections of [reset] and [sync] *)

Lemma constructed_one_collection :
  snd (constructed one_collection) = Returned one_collection_service.
Proof. reflexivity. Qed.


(** C10.  On a service the constructor returned, [escId] and [escVal]
    throw for every argument: [this.conn] is [undefined], because the
    constructor assigns only [_database] and [_collections]. *)
Theorem escId_escVal_throw
  (escapeId : string -> string) (escape : sqlarg -> string)
  (config : Config) (h h' : heap) (this : Restify) :
  constructor config h = (h', Returned this) ->
  (forall id, escId escapeId this id = Thrown TypeError) /\
  (forall val, escVal escape this val = Thrown TypeError).
Proof.
  unfold constructor, bind, gets, ret. intro H.
  repeat match type of H with
         | context [match ?x with _ => _ end] =>
             destruct x as [? [? | ? | ?]]; try discriminate
         end.
  injection H as _ <-. split; reflexivity.
Qed.

Lemma escId_escVal_throw_witness :
  constructor (literal_config one_collection) (literal_heap one_collection)
  = (fst (constructed one_collection), Returned one_collection_service) /\
  escId bare one_collection_service "users" = Thrown TypeError /\
  escVal plain one_collection_service (ArgValue (JStr "x")) = Thrown TypeError.
Proof.
  assert (H : constructor (literal_config one_collection) (literal_heap one_collection)
              = (fst (constructed one_collection), Returned one_collection_service))
    by reflexivity.
  split; [exact H |].
  destruct (escId_escVal_throw bare plain _ _ _ _ H) as [Hid Hval].
  split; [apply Hid | apply Hval].
Defined.

(* ===================================================================== *)
(** ** Own properties: reading after writing *)
(* ===================================================================== *)

Section PropsFacts.
Context {V : Type}.
Implicit Types (o : list (string * V)) (k : string) (v : V).

Lemma has_own_get o k : has_own o k = true <-> exists v, own_get o k = Some v.
Proof.
  unfold has_own. destruct (own_get o k); split; intro H; eauto.
  - discriminate.
  - now destruct H.
Qed.

Lemma has_own_false o k : has_own o k = false <-> own_get o k = None.
Proof.
  unfold has_own. destruct (own_get o k); split; intro H;
    try reflexivity; discriminate.
Qed.

Lemma own_get_In o k v : own_get o k = Some v -> In (k, v) o.
Proof.
  induction o as [| [k' v'] o IH]; simpl; [discriminate |].
  destruct (String.eqb_spec k' k) as [-> | N]; intro H.
  - injection H as ->. now left.
  - right. auto.
Qed.

Lemma own_get_keys o k : In k (keys o) <-> has_own o k = true.
Proof.
  unfold has_own, keys.
  induction o as [| [k' v'] o IH]; simpl.
  - split; [tauto | discriminate].
  - destruct (String.eqb_spec k' k) as [-> | N].
    + split; auto.
    + rewrite <- IH. split; [intros [H | H]; [contradiction | exact H] | auto].
Qed.

Lemma own_get_replace_own o k v k' :
  own_get (replace_own o k v) k'
  = if String.eqb k k' then option_map (fun _ => v) (own_get o k)
    else own_get o k'.
Proof.
  induction o as [| [k0 v0] o IH]; simpl.
  - now destruct (String.eqb k k').
  - destruct (String.eqb_spec k0 k) as [-> | N]; simpl.
    + destruct (String.eqb_spec k k') as [-> | N']; [reflexivity |].
      reflexivity.
    + rewrite IH. destruct (String.eqb_spec k k') as [E | N']; [subst k' |].
      * destruct (String.eqb_spec k0 k); [contradiction | reflexivity].
      * reflexivity.
Qed.

Lemma own_get_insert_own o k v k' :
  own_get o k = None ->
  own_get (insert_own o k v) k'
  = if String.eqb k k' then Some v else own_get o k'.
Proof.
  induction o as [| [k0 v0] o IH]; simpl; intro H.
  - now destruct (String.eqb k k').
  - destruct (String.eqb_spec k0 k) as [-> | N]; [discriminate |].
    destruct (enumerated_before k k0); simpl.
    + destruct (String.eqb_spec k k') as [E | N']; [subst k'; reflexivity |].
      reflexivity.
    + rewrite (IH H).
      destruct (String.eqb_spec k0 k') as [E | N0]; [subst k' |].
      * destruct (String.eqb_spec k k0); [congruence | reflexivity].
      * reflexivity.
Qed.

Lemma own_get_own_set o k v k' :
  own_get (own_set o k v) k' = if String.eqb k k' then Some v else own_get o k'.
Proof.
  unfold own_set, has_own. destruct (own_get o k) eqn:E.
  - rewrite own_get_replace_own, E. reflexivity.
  - now apply own_get_insert_own.
Qed.

Lemma own_get_assign o k v k' :
  own_get (assign o k v) k'
  = if (String.eqb k "__proto__" && negb (has_own o k))%bool then own_get o k'
    else if String.eqb k k' then Some v else own_get o k'.
Proof.
  unfold assign. destruct (_ && _)%bool; [reflexivity |].
  apply own_get_own_set.
Qed.

Lemma own_get_assign_ne o k v k' :
  k <> k' -> own_get (assign o k v) k' = own_get o k'.
Proof.
  intro N. rewrite own_get_assign.
  destruct (_ && _)%bool; [reflexivity |].
  destruct (String.eqb_spec k k'); [contradiction | reflexivity].
Qed.

Lemma own_get_assign_eq o k v :
  k <> "__proto__" -> own_get (assign o k v) k = Some v.
Proof.
  intro N. rewrite own_get_assign.
  destruct (String.eqb_spec k "__proto__"); [contradiction |]. simpl.
  now rewrite String.eqb_refl.
Qed.

Lemma has_own_assign o k v k' :
  has_own o k' = true -> has_own (assign o k v) k' = true.
Proof.
  unfold has_own at 1 2. rewrite own_get_assign.
  destruct (_ && _)%bool; [auto |].
  destruct (String.eqb k k'); auto.
Qed.

Lemma keys_replace_own o k v : keys (replace_own o k v) = keys o.
Proof.
  unfold keys. induction o as [| [k0 v0] o IH]; simpl; [reflexivity |].
  destruct (String.eqb k0 k); simpl; [reflexivity | now rewrite IH].
Qed.

Lemma own_get_alter_own o k (g : V -> V) k' :
  own_get (alter_own o k g) k'
  = if String.eqb k k' then option_map g (own_get o k) else own_get o k'.
Proof.
  induction o as [| [k0 v0] o IH]; simpl.
  - now destruct (String.eqb k k').
  - destruct (String.eqb_spec k0 k) as [-> | N]; simpl.
    + destruct (String.eqb_spec k k'); reflexivity.
    + rewrite IH. destruct (String.eqb_spec k k') as [E | N']; [subst k' |].
      * destruct (String.eqb_spec k0 k); [contradiction | reflexivity].
      * reflexivity.
Qed.

Lemma keys_alter_own o k (g : V -> V) : keys (alter_own o k g) = keys o.
Proof.
  unfold keys. induction o as [| [k0 v0] o IH]; simpl; [reflexivity |].
  destruct (String.eqb k0 k); simpl; [reflexivity | now rewrite IH].
Qed.

Lemma has_own_alter_own o k (g : V -> V) k' :
  has_own (alter_own o k g) k' = has_own o k'.
Proof.
  unfold has_own. rewrite own_get_alter_own.
  destruct (String.eqb_spec k k') as [-> | N]; [| reflexivity].
  now destruct (own_get o k').
Qed.

(** Only the value found under [k] matters to [alter_own]. *)
Lemma alter_own_ext o k (g g' : V -> V) :
  (forall v, own_get o k = Some v -> g v = g' v) ->
  alter_own o k g = alter_own o k g'.
Proof.
  induction o as [| [k0 v0] o IH]; simpl; intro H; [reflexivity |].
  destruct (String.eqb k0 k).
  - now rewrite H.
  - now rewrite IH.
Qed.

Lemma alter_own_alter_own o k (g g' : V -> V) :
  alter_own (alter_own o k g) k g' = alter_own o k (fun v => g' (g v)).
Proof.
  induction o as [| [k0 v0] o IH]; simpl; [reflexivity |].
  destruct (String.eqb k0 k) eqn:E; simpl; rewrite E.
  - reflexivity.
  - now rewrite IH.
Qed.

Lemma alter_own_id o k (g : V -> V) :
  (forall v, own_get o k = Some v -> g v = v) -> alter_own o k g = o.
Proof.
  induction o as [| [k0 v0] o IH]; simpl; intro H; [reflexivity |].
  destruct (String.eqb k0 k).
  - now rewrite H.
  - now rewrite IH.
Qed.

Lemma replace_own_alter o k v : replace_own o k v = alter_own o k (fun _ => v).
Proof.
  induction o as [| [k0 v0] o IH]; simpl; [reflexivity |].
  destruct (String.eqb k0 k); [reflexivity | now rewrite IH].
Qed.

End PropsFacts.

(** Mapping the values of an object commutes with reading and writing. *)
Section MapValues.
Context {V W : Type} (g : V -> W).

Lemma keys_map_values o : keys (map_values g o) = keys o.
Proof.
  unfold keys, map_values. rewrite map_map. reflexivity.
Qed.

Lemma own_get_map_values o k :
  own_get (map_values g o) k = option_map g (own_get o k).
Proof.
  induction o as [| [k0 v0] o IH]; simpl; [reflexivity |].
  destruct (String.eqb k0 k); [reflexivity | exact IH].
Qed.

Lemma has_own_map_values o k : has_own (map_values g o) k = has_own o k.
Proof.
  unfold has_own. rewrite own_get_map_values. now destruct (own_get o k).
Qed.

Lemma replace_own_map_values o k v :
  map_values g (replace_own o k v) = replace_own (map_values g o) k (g v).
Proof.
  induction o as [| [k0 v0] o IH]; simpl; [reflexivity |].
  destruct (String.eqb k0 k); simpl; [reflexivity | now rewrite IH].
Qed.

Lemma insert_own_map_values o k v :
  map_values g (insert_own o k v) = insert_own (map_values g o) k (g v).
Proof.
  induction o as [| [k0 v0] o IH]; simpl; [reflexivity |].
  destruct (enumerated_before k k0); simpl; [reflexivity | now rewrite IH].
Qed.

Lemma own_set_map_values o k v :
  map_values g (own_set o k v) = own_set (map_values g o) k (g v).
Proof.
  unfold own_set. rewrite has_own_map_values.
  destruct (has_own o k);
    [apply replace_own_map_values | apply insert_own_map_values].
Qed.

Lemma assign_map_values o k v :
  map_values g (assign o k v) = assign (map_values g o) k (g v).
Proof.
  unfold assign. rewrite has_own_map_values.
  destruct (_ && _)%bool; [reflexivity | apply own_set_map_values].
Qed.

End MapValues.

(* ===================================================================== *)
(** ** The two loops on a schema value *)
(* ===================================================================== *)

Lemma collection_at_alter_own t A (g : json_object -> json_object) A' :
  collection_at (alter_own t A g) A'
  = if String.eqb A A'
    then match own_get t A with Some c => g c | None => [] end
    else collection_at t A'.
Proof.
  unfold collection_at. rewrite own_get_alter_own.
  destruct (String.eqb A A'); [| reflexivity].
  now destruct (own_get t A).
Qed.

Lemma lookup_put_member A k d t A' f' :
  lookup (put_member A k d t) A' f'
  = if String.eqb A A'
    then match own_get t A with
         | Some c => own_get (assign c k d) f'
         | None => None
         end
    else lookup t A' f'.
Proof.
  unfold lookup, put_member. rewrite collection_at_alter_own.
  destruct (String.eqb A A'); [| reflexivity].
  now destruct (own_get t A).
Qed.

Lemma lookup_alter_field t A f (g : descriptor -> descriptor) A' f' :
  lookup (alter_own t A (fun c => alter_own c f g)) A' f'
  = if (String.eqb A A' && String.eqb f f')%bool
    then option_map g (lookup t A f)
    else lookup t A' f'.
Proof.
  unfold lookup. rewrite collection_at_alter_own.
  destruct (String.eqb_spec A A') as [E | N]; simpl; [subst A' | reflexivity].
  unfold collection_at.
  destruct (@own_get json_object t A) as [c |]; simpl.
  - apply own_get_alter_own.
  - now destruct (String.eqb f f').
Qed.

Lemma descriptor_at_lookup t A f d :
  lookup t A f = Some d -> descriptor_at t A f = d.
Proof. unfold lookup, descriptor_at. now intros ->. Qed.

Lemma attr_of_assign d n v n' :
  n <> "__proto__" ->
  attr_of (assign d n v) n' = if String.eqb n n' then v else attr_of d n'.
Proof.
  intro N. unfold attr_of. rewrite own_get_assign.
  destruct (String.eqb_spec n "__proto__"); [contradiction |]. simpl.
  now destruct (String.eqb n n').
Qed.

Lemma assign_same {V : Type} (o : list (string * V)) k v :
  own_get o k = Some v -> assign o k v = o.
Proof.
  intro H. unfold assign, own_set, has_own. rewrite H.
  rewrite andb_false_r. rewrite replace_own_alter.
  apply alter_own_id. intros v' Hv'. congruence.
Qed.

Lemma attr_of_assign_ne d n v n' :
  n <> n' -> attr_of (assign d n v) n' = attr_of d n'.
Proof.
  intro N. unfold attr_of. now rewrite own_get_assign_ne.
Qed.

Lemma attr_of_default_nullable d n :
  n <> "nullable" -> attr_of (default_nullable d) n = attr_of d n.
Proof.
  intro N. unfold default_nullable.
  destruct (nullish _); [| reflexivity].
  apply attr_of_assign_ne. congruence.
Qed.

Lemma attr_of_mark_master d n :
  n <> "master" -> attr_of (mark_master d) n = attr_of d n.
Proof.
  intro N. unfold mark_master.
  destruct (negb _); [| reflexivity].
  apply attr_of_assign_ne. congruence.
Qed.

Lemma default_nullable_done d :
  nullish (attr_of d "nullable") = false -> default_nullable d = d.
Proof. unfold default_nullable. now intros ->. Qed.

Lemma nullable_defaulted d :
  nullish (attr_of (default_nullable d) "nullable") = false.
Proof.
  unfold default_nullable.
  destruct (nullish (attr_of d "nullable")) eqn:N; [| exact N].
  now rewrite attr_of_assign by discriminate.
Qed.

Lemma mark_master_idempotent d : mark_master (mark_master d) = mark_master d.
Proof.
  unfold mark_master at 1. rewrite attr_of_mark_master by discriminate.
  unfold mark_master.
  destruct (negb (nullish (attr_of d "relation"))); [| reflexivity].
  apply assign_same. now apply own_get_assign_eq.
Qed.

Lemma mark_idempotent d : mark (mark d) = mark d.
Proof.
  unfold mark. rewrite default_nullable_done.
  - apply mark_master_idempotent.
  - rewrite attr_of_mark_master by discriminate. apply nullable_defaulted.
Qed.

Lemma mark_id_field : mark id_field = id_field.
Proof. reflexivity. Qed.

Lemma attr_of_mark d n :
  n <> "nullable" -> n <> "master" -> attr_of (mark d) n = attr_of d n.
Proof.
  intros N1 N2. unfold mark.
  now rewrite attr_of_mark_master, attr_of_default_nullable.
Qed.

Lemma master_of_mark d :
  truthy (attr_of (mark d) "master") = declares_master d.
Proof.
  unfold mark, declares_master, mark_master.
  rewrite attr_of_default_nullable by discriminate.
  destruct (nullish (attr_of d "relation")); simpl.
  - now rewrite attr_of_default_nullable by discriminate.
  - now rewrite attr_of_assign by discriminate.
Qed.

Lemma target_of_mark d : target_of (mark d) = target_of d.
Proof.
  unfold target_of. now rewrite !attr_of_mark by discriminate.
Qed.

(** *** One step of each loop *)

Lemma doc_mark_field_eq A f t :
  doc_mark_field A f t
  = match lookup t A f with
    | Some _ => (alter_own t A (fun c => alter_own c f mark), Returned tt)
    | None => missing f t
    end.
Proof.
  unfold doc_mark_field, bind, gets, member, when, modify, ret, missing,
    leave, throw, lookup.
  destruct (own_get (collection_at t A) f) as [d |] eqn:L.
  2:{ destruct (inherited f); reflexivity. }
  change (lookup t A f = Some d) in L.
  rewrite (descriptor_at_lookup _ _ _ _ L).
  assert (S1 : forall n v, lookup (put_attr A f n v t) A f = Some (assign d n v)).
  { intros. unfold put_attr. rewrite lookup_alter_field, !String.eqb_refl, L.
    reflexivity. }
  assert (P1 : forall n v,
             put_attr A f n v t
             = alter_own t A (fun c => alter_own c f (fun _ => assign d n v))).
  { intros. unfold put_attr. apply alter_own_ext. intros c Hc.
    apply alter_own_ext. intros d' Hd'.
    unfold lookup, collection_at in L. rewrite Hc in L. congruence. }
  assert (P2 : forall (g : descriptor -> descriptor) n v,
             put_attr A f n v (alter_own t A (fun c => alter_own c f g))
             = alter_own t A (fun c => alter_own c f (fun _ => assign (g d) n v))).
  { intros. unfold put_attr. rewrite alter_own_alter_own.
    apply alter_own_ext. intros c Hc. rewrite alter_own_alter_own.
    apply alter_own_ext. intros d' Hd'.
    unfold lookup, collection_at in L. rewrite Hc in L. congruence. }
  assert (Pm : alter_own t A (fun c => alter_own c f mark)
               = alter_own t A (fun c => alter_own c f (fun _ => mark d))).
  { apply alter_own_ext. intros c Hc. apply alter_own_ext. intros d' Hd'.
    unfold lookup, collection_at in L. rewrite Hc in L. congruence. }
  assert (P0 : t = alter_own t A (fun c => alter_own c f (fun _ => d))).
  { symmetry. apply alter_own_id. intros c Hc. apply alter_own_id.
    intros d' Hd'. unfold lookup, collection_at in L. rewrite Hc in L.
    congruence. }
  rewrite Pm. unfold mark, default_nullable, mark_master.
  destruct (nullish (attr_of d "nullable")) eqn:N.
  - rewrite (descriptor_at_lookup _ _ _ _ (S1 _ _)).
    destruct (negb (nullish (attr_of (assign d "nullable" (JBool true)) "relation"))).
    + rewrite P1, P2. reflexivity.
    + rewrite P1. reflexivity.
  - rewrite (descriptor_at_lookup _ _ _ _ L).
    destruct (negb (nullish (attr_of d "relation"))).
    + rewrite P1. reflexivity.
    + rewrite <- P0. reflexivity.
Qed.

Lemma doc_link_field_eq A f t :
  doc_link_field A f t
  = match lookup t A f with
    | None => missing f t
    | Some d =>
        if truthy (attr_of d "master") then
          match invRelation (attr_of d "relation") with
          | Returned inverse =>
              match own_get t (fst (target_of d)) with
              | Some _ =>
                  (put_member (fst (target_of d)) (snd (target_of d))
                     (derived_field A inverse f) t, Returned tt)
              | None => missing (fst (target_of d)) t
              end
          | Thrown e => (t, Thrown e)
          | Builtin k => (t, Builtin k)
          end
        else (t, Returned tt)
    end.
Proof.
  unfold doc_link_field, bind, gets, member, when, modify, ret, lift, missing,
    leave, throw, lookup.
  destruct (own_get (collection_at t A) f) as [d |] eqn:L.
  2:{ destruct (inherited f); reflexivity. }
  change (lookup t A f = Some d) in L.
  rewrite (descriptor_at_lookup _ _ _ _ L).
  destruct (truthy (attr_of d "master")); [| reflexivity].
  rewrite !(descriptor_at_lookup _ _ _ _ L).
  destruct (invRelation (attr_of d "relation")); try reflexivity.
  unfold target_of. simpl.
  destruct (own_get t (to_string (attr_of d "type"))); [reflexivity |].
  destruct (inherited _); reflexivity.
Qed.

(** *** Loops *)

Lemma for_each_cons {S A : Type} (x : A) (xs : list A) (body : A -> M S unit) s :
  for_each (x :: xs) body s
  = match body x s with
    | (s', Returned _) => for_each xs body s'
    | (s', Thrown e) => (s', Thrown e)
    | (s', Builtin b) => (s', Builtin b)
    end.
Proof. reflexivity. Qed.

(** A property every step keeps holds of the state a loop stops in,
    however it stops. *)
Lemma for_each_invariant {S A : Type} (I : S -> Prop) (body : A -> M S unit) xs :
  (forall x s, In x xs -> I s -> I (fst (body x s))) ->
  forall s, I s -> I (fst (for_each xs body s)).
Proof.
  induction xs as [| x xs IH]; intros Hstep s Hs; [exact Hs |].
  rewrite for_each_cons.
  pose proof (Hstep x s (or_introl eq_refl) Hs) as H1.
  destruct (body x s) as [s' [[] | e | b]]; simpl in *;
    [| exact H1 | exact H1].
  apply IH; [| exact H1]. intros y s0 Hy. apply Hstep. now right.
Qed.

(** *** The first loop *)

Lemma option_map_mark_idempotent (x : option descriptor) :
  option_map mark (option_map mark x) = option_map mark x.
Proof. destruct x; simpl; [now rewrite mark_idempotent | reflexivity]. Qed.

Lemma mark_fields_spec A fs :
  forall t,
    (forall f, In f fs -> lookup t A f <> None) ->
    exists t',
      for_each fs (doc_mark_field A) t = (t', Returned tt) /\
      keys t' = keys t /\
      (forall A', has_own t' A' = has_own t A') /\
      forall A' f',
        lookup t' A' f'
        = if (String.eqb A A' && existsb (String.eqb f') fs)%bool
          then option_map mark (lookup t A' f')
          else lookup t A' f'.
Proof.
  induction fs as [| f fs IH]; intros t Hin.
  - exists t. simpl. repeat split; auto.
    intros. now rewrite andb_false_r.
  - rewrite for_each_cons, doc_mark_field_eq.
    destruct (lookup t A f) as [d |] eqn:L.
    2:{ exfalso. apply (Hin f); [now left | exact L]. }
    set (t1 := alter_own t A (fun c => alter_own c f mark)).
    assert (L1 : forall A' f',
               lookup t1 A' f'
               = if (String.eqb A A' && String.eqb f f')%bool
                 then option_map mark (lookup t A f) else lookup t A' f').
    { intros. apply lookup_alter_field. }
    destruct (IH t1) as (t' & E & K & Hh & Hl).
    { intros f2 H2. rewrite L1.
      destruct (_ && _)%bool.
      - rewrite L. discriminate.
      - apply Hin. now right. }
    exists t'. split; [exact E |]. split.
    { rewrite K. apply keys_alter_own. }
    split.
    { intro A'. rewrite Hh. apply has_own_alter_own. }
    intros A' f'. rewrite Hl, !L1. simpl.
    destruct (String.eqb_spec A A') as [EA | NA]; simpl; [subst A' | reflexivity].
    rewrite (String.eqb_sym f' f).
    destruct (String.eqb_spec f f') as [Ef | Nf]; simpl.
    + subst f'. destruct (existsb _ fs);
        [apply option_map_mark_idempotent | reflexivity].
    + reflexivity.
Qed.

Lemma marked_idempotent x f : marked (marked x f) f = marked x f.
Proof.
  unfold marked. destruct (String.eqb f "_id"); [reflexivity |].
  apply option_map_mark_idempotent.
Qed.

Lemma mark_collection_spec A t :
  has_own t A = true ->
  exists t',
    doc_mark_collection A t = (t', Returned tt) /\
    keys t' = keys t /\
    (forall A', has_own t' A' = has_own t A') /\
    forall A' f',
      lookup t' A' f'
      = if String.eqb A A' then marked (lookup t A' f') f' else lookup t A' f'.
Proof.
  intro Hc. apply has_own_get in Hc. destruct Hc as [c Hc].
  unfold doc_mark_collection, bind, gets, member, modify, ret.
  rewrite Hc.
  set (t0 := put_member A "_id" id_field t).
  assert (L0 : forall A' f',
             lookup t0 A' f'
             = if String.eqb A A'
               then (if String.eqb "_id" f' then Some id_field
                     else lookup t A' f')
               else lookup t A' f').
  { intros. unfold t0. rewrite lookup_put_member, Hc.
    destruct (String.eqb_spec A A') as [E | N]; [subst A' | reflexivity].
    rewrite own_get_assign. simpl.
    unfold lookup, collection_at. now rewrite Hc. }
  destruct (mark_fields_spec A (keys (collection_at t0 A)) t0)
    as (t' & E & K & Hh & Hl).
  { intros f Hf. apply own_get_keys in Hf. apply has_own_get in Hf.
    destruct Hf as [d Hd]. unfold lookup. rewrite Hd. discriminate. }
  exists t'. split; [exact E |]. split.
  { rewrite K. apply keys_alter_own. }
  split.
  { intro A'. rewrite Hh. apply has_own_alter_own. }
  intros A' f'.
  destruct (String.eqb_spec A A') as [EA | NA].
  2:{ rewrite Hl, L0.
      destruct (String.eqb_spec A A'); [contradiction | reflexivity]. }
  subst A'.
  assert (Hm : lookup t' A f' = option_map mark (lookup t0 A f')).
  { rewrite Hl, String.eqb_refl. simpl.
    destruct (existsb (String.eqb f') (keys (collection_at t0 A))) eqn:X;
      [reflexivity |].
    assert (N : lookup t0 A f' = None).
    { unfold lookup. apply has_own_false.
      destruct (has_own (collection_at t0 A) f') eqn:Hk; [| reflexivity].
      apply own_get_keys in Hk.
      assert (existsb (String.eqb f') (keys (collection_at t0 A)) = true).
      { apply existsb_exists. exists f'. split; [exact Hk | apply String.eqb_refl]. }
      congruence. }
    now rewrite N. }
  rewrite Hm, L0, String.eqb_refl. unfold marked.
  rewrite (String.eqb_sym f' "_id").
  destruct (String.eqb "_id" f'); reflexivity.
Qed.

Lemma mark_collections_spec names :
  forall t,
    (forall A, In A names -> has_own t A = true) ->
    exists t',
      for_each names doc_mark_collection t = (t', Returned tt) /\
      keys t' = keys t /\
      (forall A', has_own t' A' = has_own t A') /\
      forall A' f',
        lookup t' A' f'
        = if existsb (String.eqb A') names then marked (lookup t A' f') f'
          else lookup t A' f'.
Proof.
  induction names as [| A names IH]; intros t Hin.
  - exists t. simpl. repeat split; auto.
  - rewrite for_each_cons.
    destruct (mark_collection_spec A t) as (t1 & E1 & K1 & H1 & L1).
    { apply Hin. now left. }
    rewrite E1.
    destruct (IH t1) as (t' & E & K & Hh & Hl).
    { intros A' HA'. rewrite H1. apply Hin. now right. }
    exists t'. split; [exact E |]. split; [congruence |]. split.
    { intro A'. now rewrite Hh, H1. }
    intros A' f'. rewrite Hl, !L1. simpl.
    rewrite (String.eqb_sym A' A).
    destruct (String.eqb A A'); simpl; [| reflexivity].
    destruct (existsb _ names); [apply marked_idempotent | reflexivity].
Qed.

Lemma lookup_without_collection t A f : has_own t A = false -> lookup t A f = None.
Proof.
  intro H. apply has_own_false in H. unfold lookup, collection_at.
  now rewrite H.
Qed.

(** The first loop never throws.  It leaves under every collection the
    field [_id] and the marked fields of the document. *)
Lemma doc_mark_spec t :
  exists t',
    doc_mark t = (t', Returned tt) /\
    keys t' = keys t /\
    (forall A, has_own t' A = has_own t A) /\
    forall A f,
      lookup t' A f = if has_own t A then marked (lookup t A f) f else None.
Proof.
  unfold doc_mark, bind, gets.
  destruct (mark_collections_spec (keys t) t) as (t' & E & K & Hh & Hl).
  { intros A HA. now apply own_get_keys. }
  exists t'. split; [exact E |]. split; [exact K |]. split; [exact Hh |].
  intros A f. rewrite Hl.
  destruct (has_own t A) eqn:HA.
  - apply own_get_keys in HA.
    assert (X : existsb (String.eqb A) (keys t) = true).
    { apply existsb_exists. exists A. split; [exact HA | apply String.eqb_refl]. }
    now rewrite X.
  - destruct (existsb (String.eqb A) (keys t)) eqn:X.
    + apply existsb_exists in X. destruct X as (A' & HA' & EA).
      apply String.eqb_eq in EA. subst A'. apply own_get_keys in HA'. congruence.
    + now apply lookup_without_collection.
Qed.

(** *** The second loop, one step *)

Lemma lookup_put_member_other B R x t A f :
  (B, R) <> (A, f) -> lookup (put_member B R x t) A f = lookup t A f.
Proof.
  intro N. rewrite lookup_put_member.
  destruct (String.eqb_spec B A) as [E | NB]; [subst A | reflexivity].
  destruct (own_get t B) as [c |] eqn:Hc.
  - rewrite own_get_assign_ne by congruence.
    unfold lookup, collection_at. now rewrite Hc.
  - unfold lookup, collection_at. now rewrite Hc.
Qed.

Lemma lookup_put_member_same B R x t :
  has_own t B = true -> R <> "__proto__" ->
  lookup (put_member B R x t) B R = Some x.
Proof.
  intros H N. apply has_own_get in H. destruct H as [c Hc].
  rewrite lookup_put_member, String.eqb_refl, Hc.
  now apply own_get_assign_eq.
Qed.

Lemma lookup_put_member_cases B R x t A f :
  lookup (put_member B R x t) A f = lookup t A f \/
  lookup (put_member B R x t) A f = Some x.
Proof.
  rewrite lookup_put_member.
  destruct (String.eqb_spec B A) as [E | NB]; [subst A | now left].
  destruct (own_get t B) as [c |] eqn:Hc.
  - rewrite own_get_assign. unfold lookup, collection_at. rewrite Hc.
    destruct (_ && _)%bool; [now left |].
    destruct (String.eqb R f); [now right | now left].
  - left. unfold lookup, collection_at. now rewrite Hc.
Qed.

Lemma grows_refl t : grows t t.
Proof. split; auto. Qed.

Lemma grows_trans t t' t'' : grows t t' -> grows t' t'' -> grows t t''.
Proof.
  intros [H1 L1] [H2 L2]. split.
  - intro A. now rewrite H2, H1.
  - auto.
Qed.

Lemma grows_put_member B R x t : grows t (put_member B R x t).
Proof.
  split.
  - intro A. apply has_own_alter_own.
  - intros A f H. rewrite lookup_put_member.
    destruct (String.eqb_spec B A) as [E | NB]; [subst A | exact H].
    unfold lookup, collection_at in H.
    destruct (own_get t B) as [c |]; [| exact H].
    intro N. apply H.
    apply has_own_false in N. apply has_own_false.
    destruct (has_own c f) eqn:X; [| reflexivity].
    rewrite (has_own_assign c R x f X) in N. discriminate.
Qed.

(** A step of the second loop leaves the state as it is, or writes the
    inverse of the master field it looks at. *)
Lemma link_step A f t :
  let r := doc_link_field A f t in
  (fst r = t /\
   (snd r = Returned tt ->
    exists d, lookup t A f = Some d /\ truthy (attr_of d "master") = false)) \/
  (exists d inverse,
      lookup t A f = Some d /\
      truthy (attr_of d "master") = true /\
      invRelation (attr_of d "relation") = Returned inverse /\
      has_own t (fst (target_of d)) = true /\
      r = (put_member (fst (target_of d)) (snd (target_of d))
             (derived_field A inverse f) t, Returned tt)).
Proof.
  simpl. rewrite doc_link_field_eq.
  destruct (lookup t A f) as [d |] eqn:L.
  2:{ left. split; [reflexivity |]. unfold missing. simpl.
      destruct (inherited f); discriminate. }
  destruct (truthy (attr_of d "master")) eqn:Hm.
  2:{ left. split; [reflexivity |]. intros _. now exists d. }
  destruct (invRelation (attr_of d "relation")) as [inverse | e | k] eqn:Hi.
  2,3: left; split; [reflexivity | discriminate].
  destruct (own_get t (fst (target_of d))) as [c |] eqn:Hc.
  - right. exists d, inverse. repeat split; auto.
    apply has_own_get. now exists c.
  - left. split; [reflexivity |]. unfold missing. simpl.
    destruct (inherited _); discriminate.
Qed.

Lemma derived_field_not_master A inverse f :
  truthy (attr_of (derived_field A inverse f) "master") = false.
Proof. reflexivity. Qed.

Lemma settled_refl t : settled t t.
Proof. split; [apply grows_refl | auto]. Qed.

Lemma settled_put_member t1 t B R A inverse f :
  settled t1 t ->
  settled t1 (put_member B R (derived_field A inverse f) t).
Proof.
  intros [G S]. split.
  - eapply grows_trans; [exact G | apply grows_put_member].
  - intros A' f' d L M.
    destruct (lookup_put_member_cases B R (derived_field A inverse f) t A' f')
      as [E | E]; rewrite E in L.
    + now apply S.
    + injection L as <-. rewrite derived_field_not_master in M. discriminate.
Qed.

Lemma settled_step t1 A f t :
  settled t1 t ->
  settled t1 (fst (doc_link_field A f t)) /\ grows t (fst (doc_link_field A f t)).
Proof.
  intro S. destruct (link_step A f t) as [[E _] | (d & inv & _ & _ & _ & _ & E)];
    rewrite E; simpl.
  - split; [exact S | apply grows_refl].
  - split; [now apply settled_put_member | apply grows_put_member].
Qed.

(** *** The second loop, as a whole *)

Lemma doc_link_collection_eq A t :
  doc_link_collection A t
  = match own_get t A with
    | Some c => for_each (keys c) (doc_link_field A) t
    | None => missing A t
    end.
Proof.
  unfold doc_link_collection, bind, gets, member, ret, leave, throw, missing,
    collection_at.
  destruct (own_get t A) as [c |] eqn:E; simpl.
  - now rewrite E.
  - destruct (inherited A); reflexivity.
Qed.

Lemma doc_link_eq t : doc_link t = for_each (keys t) doc_link_collection t.
Proof. reflexivity. Qed.

(** A property every step of the second loop keeps holds of the state
    the loop stops in, however it stops. *)
Lemma doc_link_invariant (I : json -> Prop) :
  (forall A f t, I t -> I (fst (doc_link_field A f t))) ->
  forall t, I t -> I (fst (doc_link t)).
Proof.
  intros Hstep t Ht. rewrite doc_link_eq.
  apply for_each_invariant; [| exact Ht].
  intros A s _ Hs. rewrite doc_link_collection_eq.
  destruct (own_get s A) as [c |]; [| exact Hs].
  apply for_each_invariant; [| exact Hs].
  intros f s' _. apply Hstep.
Qed.


(** *** Loops that return, and loops that throw *)

Lemma for_each_reach {S X : Type} (I P : S -> Prop) (body : X -> M S unit)
  (x0 : X) xs :
  (forall x s, I s -> I (fst (body x s))) ->
  (forall x s, I s -> P s -> P (fst (body x s))) ->
  (forall s, I s -> snd (body x0 s) = Returned tt -> P (fst (body x0 s))) ->
  forall s, I s -> In x0 xs \/ P s ->
            snd (for_each xs body s) = Returned tt ->
            P (fst (for_each xs body s)).
Proof.
  intros HI HP H0. induction xs as [| x xs IH]; intros s Is Hx R.
  - destruct Hx as [[] | Ps]. exact Ps.
  - rewrite for_each_cons in *.
    pose proof (HI x s Is) as I1. pose proof (HP x s Is) as P1.
    destruct (body x s) as [s1 [[] | e | b]] eqn:E; simpl in *; try discriminate.
    apply IH; auto.
    destruct Hx as [[E0 | Hin] | Ps]; auto.
    subst x. right. specialize (H0 s Is). rewrite E in H0. now apply H0.
Qed.

Lemma for_each_all_return {S X : Type} (I : S -> Prop) (body : X -> M S unit) xs :
  (forall x s, In x xs -> I s ->
               snd (body x s) = Returned tt /\ I (fst (body x s))) ->
  forall s, I s ->
            snd (for_each xs body s) = Returned tt /\ I (fst (for_each xs body s)).
Proof.
  induction xs as [| x xs IH]; intros H s Is.
  - split; [reflexivity | exact Is].
  - rewrite for_each_cons.
    destruct (H x s (or_introl eq_refl) Is) as [R1 I1].
    destruct (body x s) as [s1 o1]; simpl in *. subst o1.
    apply IH; [| exact I1]. intros y s' Hy. apply H. now right.
Qed.

Lemma for_each_throws_at {S X : Type} (I : S -> Prop) (body : X -> M S unit)
  (x0 : X) (e : exn) xs :
  (forall x, x = x0 \/ x <> x0) ->
  (forall x s, In x xs -> x <> x0 -> I s ->
               snd (body x s) = Returned tt /\ I (fst (body x s))) ->
  (forall s, I s -> snd (body x0 s) = Thrown e) ->
  forall s, I s -> In x0 xs -> snd (for_each xs body s) = Thrown e.
Proof.
  intros Dec. induction xs as [| x xs IH]; intros H H0 s Is Hin; [destruct Hin |].
  rewrite for_each_cons.
  destruct (Dec x) as [E | N].
  - subst x. specialize (H0 s Is).
    destruct (body x0 s) as [s1 o1]; simpl in *. now subst o1.
  - destruct (H x s (or_introl eq_refl) N Is) as [R1 I1].
    destruct (body x s) as [s1 o1]; simpl in *. subst o1.
    apply IH; [| exact H0 | exact I1 |].
    + intros y s' Hy. apply H. now right.
    + destruct Hin as [E | Hin]; [congruence | exact Hin].
Qed.

Lemma lookup_in_keys (t : json) A f (c : json_object) :
  own_get t A = Some c -> lookup t A f <> None -> In f (keys c).
Proof.
  intros Hc H. unfold lookup, collection_at in H. rewrite Hc in H.
  apply own_get_keys. destruct (has_own c f) eqn:X; [reflexivity |].
  apply has_own_false in X. contradiction.
Qed.

Lemma keys_in_lookup (t : json) A f (c : json_object) :
  own_get t A = Some c -> In f (keys c) -> lookup t A f <> None.
Proof.
  intros Hc H. unfold lookup, collection_at. rewrite Hc.
  apply own_get_keys in H. apply has_own_get in H. destruct H as [d ->].
  discriminate.
Qed.

Lemma lookup_has_own t A f d : lookup t A f = Some d -> has_own t A = true.
Proof.
  intro H. destruct (has_own t A) eqn:X; [reflexivity |].
  rewrite lookup_without_collection in H by exact X. discriminate.
Qed.

(** *** The inverse of a master field that nothing disturbs *)

Section Inverse.
Variables (t1 : json) (A F B R : string) (dF : descriptor).
Hypothesis HF : lookup t1 A F = Some dF.
Hypothesis Hmaster : truthy (attr_of dF "master") = true.
Hypothesis Htarget : target_of dF = (B, R).
Hypothesis HR : R <> "__proto__".
Hypothesis Hothers :
  forall A' f' d',
    lookup t1 A' f' = Some d' -> truthy (attr_of d' "master") = true ->
    (A', f') <> (A, F) ->
    target_of d' <> (B, R) /\ target_of d' <> (A, F).

Let written (t : json) : Prop :=
  exists inverse,
    invRelation (attr_of dF "relation") = Returned inverse /\
    lookup t B R = Some (derived_field A inverse F).

Let intact (t : json) : Prop :=
  settled t1 t /\ (lookup t A F = Some dF \/ written t).

Lemma inverse_step A' f' t :
  intact t ->
  intact (fst (doc_link_field A' f' t)) /\
  (written t -> written (fst (doc_link_field A' f' t))) /\
  ((A', f') = (A, F) -> snd (doc_link_field A' f' t) = Returned tt ->
   written (fst (doc_link_field A' f' t))).
Proof.
  intros [S Q].
  destruct (link_step A' f' t) as [[E Hret] | (d & inv & L & M & Hi & Ho & E)].
  - rewrite E. split; [split; assumption |]. split; [auto |].
    intros Eq Hr. injection Eq as -> ->.
    destruct (Hret Hr) as (d & Ld & Md).
    destruct Q as [Q | W]; [| exact W].
    rewrite Q in Ld. injection Ld as <-. congruence.
  - rewrite E. cbn [fst snd].
    set (t' := put_member (fst (target_of d)) (snd (target_of d))
                 (derived_field A' inv f') t).
    assert (L1 : lookup t1 A' f' = Some d) by now apply (proj2 S).
    assert (S' : settled t1 t') by now apply settled_put_member.
    assert (Dec : (A', f') = (A, F) \/ (A', f') <> (A, F)).
    { destruct (string_dec A' A) as [-> | NA];
        [destruct (string_dec f' F) as [-> | Nf] |];
        [now left | right; congruence | right; congruence]. }
    destruct Dec as [Eq | N].
    + injection Eq as -> ->. rewrite HF in L1. injection L1 as <-.
      assert (W : written t').
      { exists inv. split; [exact Hi |]. unfold t'. rewrite Htarget. simpl.
        apply lookup_put_member_same; [| exact HR].
        rewrite Htarget in Ho. exact Ho. }
      split; [split; [exact S' | now right] |]. split; auto.
    + destruct (Hothers A' f' d L1 M N) as [N1 N2].
      rewrite (surjective_pairing (target_of d)) in N1, N2.
      assert (K : written t -> written t').
      { intros (i & Hi' & Li). exists i. split; [exact Hi' |].
        unfold t'. now rewrite lookup_put_member_other. }
      split; [split; [exact S' |] | split; [exact K | now intro]].
      destruct Q as [Q | W]; [left | right; now apply K].
      unfold t'. now rewrite lookup_put_member_other.
Qed.

Lemma inverse_in_collection A' t :
  intact t ->
  intact (fst (doc_link_collection A' t)) /\
  (written t -> written (fst (doc_link_collection A' t))) /\
  (A' = A -> snd (doc_link_collection A' t) = Returned tt ->
   written (fst (doc_link_collection A' t))).
Proof.
  intro It. rewrite doc_link_collection_eq.
  destruct (own_get t A') as [c |] eqn:Hc.
  2:{ unfold missing. simpl. split; [exact It |]. split; [auto |].
      intros _. destruct (inherited A'); discriminate. }
  split; [| split].
  - apply for_each_invariant; [| exact It].
    intros f s _ Is. now apply inverse_step.
  - intro W.
    apply (for_each_invariant (fun s => intact s /\ written s));
      [| split; assumption].
    intros f s _ [Is Ws].
    destruct (inverse_step A' f s Is) as (H1 & H2 & _). auto.
  - intros -> Hr.
    apply (for_each_reach intact written (doc_link_field A) F);
      [| | | exact It | | exact Hr].
    + intros f s Is. now apply inverse_step.
    + intros f s Is. now apply inverse_step.
    + intros s Is. now apply inverse_step.
    + left. apply (lookup_in_keys t A); [exact Hc |].
      apply (proj2 (proj1 (proj1 It))). rewrite HF. discriminate.
Qed.

Lemma doc_link_inverse :
  snd (doc_link t1) = Returned tt -> written (fst (doc_link t1)).
Proof.
  rewrite doc_link_eq.
  apply (for_each_reach intact written doc_link_collection A).
  - intros A' s Is. now apply inverse_in_collection.
  - intros A' s Is. now apply inverse_in_collection.
  - intros s Is. now apply inverse_in_collection.
  - split; [apply settled_refl | now left].
  - left. apply own_get_keys. eapply lookup_has_own. exact HF.
Qed.

End Inverse.

(** *** When the second loop returns, and when it throws *)

Lemma recognized_inverse relation :
  recognized relation = true -> exists inverse, invRelation relation = Returned inverse.
Proof.
  unfold recognized. destruct (invRelation relation); try discriminate. eauto.
Qed.

Lemma link_field_returns t1 A f t :
  settled t1 t ->
  lookup t A f <> None ->
  (forall d, lookup t1 A f = Some d -> truthy (attr_of d "master") = true ->
             recognized (attr_of d "relation") = true /\
             has_own t1 (fst (target_of d)) = true) ->
  snd (doc_link_field A f t) = Returned tt.
Proof.
  intros S L H. rewrite doc_link_field_eq.
  destruct (lookup t A f) as [d |] eqn:Ld; [| contradiction].
  destruct (truthy (attr_of d "master")) eqn:M; [| reflexivity].
  destruct (H d (proj2 S _ _ _ Ld M) M) as [Hr Ho].
  apply recognized_inverse in Hr. destruct Hr as [inv ->].
  rewrite <- (proj1 (proj1 S)) in Ho. apply has_own_get in Ho.
  destruct Ho as [c ->]. reflexivity.
Qed.

Section Returns.
Variable t1 : json.
Hypothesis Hlinked :
  forall A f d,
    lookup t1 A f = Some d -> truthy (attr_of d "master") = true ->
    recognized (attr_of d "relation") = true /\
    has_own t1 (fst (target_of d)) = true.

Lemma link_fields_return A fs t :
  settled t1 t ->
  (forall f, In f fs -> lookup t A f <> None) ->
  snd (for_each fs (doc_link_field A) t) = Returned tt /\
  settled t1 (fst (for_each fs (doc_link_field A) t)).
Proof.
  intros S Hfs.
  destruct (for_each_all_return
              (fun s => settled t1 s /\ forall f, In f fs -> lookup s A f <> None)
              (doc_link_field A) fs) with (s := t) as [R [S' _]].
  - intros f s Hf [Ss Hs]. split.
    + apply (link_field_returns t1); [exact Ss | now apply Hs |].
      intro d. apply Hlinked.
    + destruct (settled_step t1 A f s Ss) as [S2 G2]. split; [exact S2 |].
      intros f2 H2. apply (proj2 G2). now apply Hs.
  - split; assumption.
  - split; assumption.
Qed.

Lemma link_collection_returns A t :
  settled t1 t -> has_own t A = true ->
  snd (doc_link_collection A t) = Returned tt /\
  settled t1 (fst (doc_link_collection A t)).
Proof.
  intros S H. rewrite doc_link_collection_eq.
  apply has_own_get in H. destruct H as [c Hc]. rewrite Hc.
  apply link_fields_return; [exact S |].
  intros f Hf. now apply (keys_in_lookup t A f c).
Qed.

Lemma doc_link_returns : snd (doc_link t1) = Returned tt.
Proof.
  rewrite doc_link_eq.
  apply (for_each_all_return (settled t1) doc_link_collection).
  - intros A s HA Ss. apply link_collection_returns; [exact Ss |].
    rewrite (proj1 (proj1 Ss)). now apply own_get_keys.
  - apply settled_refl.
Qed.

End Returns.

Section Throws.
Variables (t1 : json) (A F : string) (dF : descriptor).
Hypothesis HF : lookup t1 A F = Some dF.
Hypothesis Hmaster : truthy (attr_of dF "master") = true.
Hypothesis Hkind : recognized (attr_of dF "relation") = true.
Hypothesis Habsent : has_own t1 (fst (target_of dF)) = false.
Hypothesis Hplain : inherited (fst (target_of dF)) = false.
Hypothesis Hothers :
  forall A' f' d',
    lookup t1 A' f' = Some d' -> truthy (attr_of d' "master") = true ->
    (A', f') <> (A, F) ->
    (recognized (attr_of d' "relation") = true /\
     has_own t1 (fst (target_of d')) = true) /\
    target_of d' <> (A, F).

Let waiting (t : json) : Prop :=
  settled t1 t /\ lookup t A F = Some dF.

Lemma waiting_step A' f' t :
  (A', f') <> (A, F) -> waiting t -> lookup t A' f' <> None ->
  snd (doc_link_field A' f' t) = Returned tt /\
  waiting (fst (doc_link_field A' f' t)) /\
  grows t (fst (doc_link_field A' f' t)).
Proof.
  intros N [S Q] L. split; [| split].
  - apply (link_field_returns t1); auto.
    intros d Ld M. now apply (Hothers A' f' d).
  - split; [now apply settled_step |].
    destruct (link_step A' f' t) as [[E _] | (d & inv & Ld & M & _ & _ & E)];
      rewrite E; cbn [fst]; [exact Q |].
    rewrite lookup_put_member_other; [exact Q |].
    rewrite <- surjective_pairing.
    apply (Hothers A' f' d); auto. now apply (proj2 S).
  - now apply settled_step.
Qed.

Lemma waiting_throws t :
  waiting t -> snd (doc_link_field A F t) = Thrown TypeError.
Proof.
  intros [S Q]. rewrite doc_link_field_eq, Q, Hmaster.
  destruct (recognized_inverse _ Hkind) as [inv ->].
  rewrite <- (proj1 (proj1 S)) in Habsent. apply has_own_false in Habsent.
  rewrite Habsent. unfold missing. cbn [snd]. now rewrite Hplain.
Qed.

Lemma waiting_collection A' t :
  waiting t -> has_own t A' = true ->
  (A' <> A ->
   snd (doc_link_collection A' t) = Returned tt /\
   waiting (fst (doc_link_collection A' t))) /\
  (A' = A -> snd (doc_link_collection A' t) = Thrown TypeError).
Proof.
  intros W H. rewrite doc_link_collection_eq.
  apply has_own_get in H. destruct H as [c Hc]. rewrite Hc.
  set (I := fun s => waiting s /\ forall f, In f (keys c) -> lookup s A' f <> None).
  assert (I0 : I t).
  { split; [exact W |]. intros f Hf. now apply (keys_in_lookup t A' f c). }
  split.
  - intro N.
    destruct (for_each_all_return I (doc_link_field A') (keys c))
      with (s := t) as [R [W' _]]; [| exact I0 | split; assumption].
    intros f s Hf [Ws Hs].
    destruct (waiting_step A' f s) as (R1 & W1 & G1); auto; [congruence |].
    split; [exact R1 |]. split; [exact W1 |].
    intros f2 H2. apply (proj2 G1). now apply Hs.
  - intros ->.
    apply (for_each_throws_at I (doc_link_field A) F); [| | | exact I0 |].
    + intro f. destruct (string_dec f F); [now left | now right].
    + intros f s Hf N [Ws Hs].
      destruct (waiting_step A f s) as (R1 & W1 & G1); auto; [congruence |].
      split; [exact R1 |]. split; [exact W1 |].
      intros f2 H2. apply (proj2 G1). now apply Hs.
    + intros s [Ws _]. now apply waiting_throws.
    + apply (lookup_in_keys t A F c Hc). rewrite (proj2 W). discriminate.
Qed.

Lemma doc_link_throws : snd (doc_link t1) = Thrown TypeError.
Proof.
  rewrite doc_link_eq.
  apply (for_each_throws_at waiting doc_link_collection A).
  - intro A'. destruct (string_dec A' A); [now left | now right].
  - intros A' s HA N Ws. apply waiting_collection; auto.
    rewrite (proj1 (proj1 (proj1 Ws))). now apply own_get_keys.
  - intros s Ws. apply (waiting_collection A s); auto.
    rewrite (proj1 (proj1 (proj1 Ws))). eapply lookup_has_own. exact HF.
  - split; [apply settled_refl | exact HF].
  - apply own_get_keys. eapply lookup_has_own. exact HF.
Qed.

End Throws.

(** *** Both loops, from the document *)

Lemma same_place_eq p q : same_place p q = true <-> p = q.
Proof.
  destruct p as [a b], q as [c d]. unfold same_place. simpl.
  rewrite andb_true_iff, !String.eqb_eq. split.
  - intros [-> ->]. reflexivity.
  - intro H. injection H as -> ->. auto.
Qed.

Lemma same_place_neq p q : same_place p q = false <-> p <> q.
Proof.
  rewrite <- same_place_eq. destruct (same_place p q); split; congruence.
Qed.

Lemma lookup_entries (t : json) A f d :
  lookup t A f = Some d -> In (A, f, d) (entries t).
Proof.
  unfold lookup, collection_at, entries. intro H.
  destruct (own_get t A) as [c |] eqn:Hc; [| discriminate].
  apply in_flat_map. exists (A, c). split; [now apply own_get_In |].
  simpl. apply in_map_iff. exists (f, d). split; [reflexivity |].
  now apply own_get_In.
Qed.

Lemma undisturbed_spec t A F p :
  undisturbed t A F p = true ->
  forall A' f' d,
    lookup t A' f' = Some d -> declares_master d = true -> (A', f') <> (A, F) ->
    target_of d <> p /\ target_of d <> (A, F).
Proof.
  unfold undisturbed. rewrite forallb_forall. intros H A' f' d L M N.
  specialize (H _ (lookup_entries _ _ _ _ L)). simpl in H. rewrite M in H.
  apply same_place_neq in N. rewrite N in H. simpl in H.
  apply andb_true_iff in H. destruct H as [H1 H2].
  apply negb_true_iff in H1, H2. now rewrite !same_place_neq in *.
Qed.

Lemma well_linked_spec t :
  well_linked t = true ->
  forall A f d,
    lookup t A f = Some d -> declares_master d = true ->
    recognized (attr_of d "relation") = true /\
    has_own t (fst (target_of d)) = true.
Proof.
  unfold well_linked. rewrite forallb_forall. intros H A f d L M.
  specialize (H _ (lookup_entries _ _ _ _ L)). simpl in H. rewrite M in H.
  simpl in H. now apply andb_true_iff in H.
Qed.


Lemma own_targets_spec t :
  own_targets t = true ->
  forall A f d,
    lookup t A f = Some d -> declares_master d = true ->
    has_own t (fst (target_of d)) = false ->
    inherited (fst (target_of d)) = false.
Proof.
  unfold own_targets. rewrite forallb_forall. intros H A f d L M Ha.
  specialize (H _ (lookup_entries _ _ _ _ L)). simpl in H. rewrite M in H.
  unfold target_of in *. cbn [fst] in *. rewrite Ha in H. simpl in H.
  now apply negb_true_iff in H.
Qed.

Lemma others_well_linked_spec t A F :
  others_well_linked t A F = true ->
  forall A' f' d,
    lookup t A' f' = Some d -> declares_master d = true -> (A', f') <> (A, F) ->
    (recognized (attr_of d "relation") = true /\
     has_own t (fst (target_of d)) = true) /\
    target_of d <> (A, F).
Proof.
  unfold others_well_linked. rewrite forallb_forall. intros H A' f' d L M N.
  specialize (H _ (lookup_entries _ _ _ _ L)). simpl in H. rewrite M in H.
  apply same_place_neq in N. rewrite N in H. simpl in H.
  rewrite !andb_true_iff in H. destruct H as [[H1 H2] H3].
  apply negb_true_iff in H3. apply same_place_neq in H3. auto.
Qed.

Section Resolve.
Variable t0 : json.

Let t1 : json := fst (doc_mark t0).

Lemma doc_resolve_eq : doc_resolve t0 = doc_link t1.
Proof.
  unfold doc_resolve, bind, t1.
  destruct (doc_mark_spec t0) as (t' & E & _). now rewrite E.
Qed.

Lemma marked_has_own A : has_own t1 A = has_own t0 A.
Proof.
  unfold t1. destruct (doc_mark_spec t0) as (t' & E & _ & H & _).
  rewrite E. apply H.
Qed.

Lemma marked_lookup A f :
  lookup t1 A f = if has_own t0 A then marked (lookup t0 A f) f else None.
Proof.
  unfold t1. destruct (doc_mark_spec t0) as (t' & E & _ & _ & H).
  rewrite E. apply H.
Qed.

Lemma marked_field A f d0 :
  lookup t0 A f = Some d0 -> f <> "_id" -> lookup t1 A f = Some (mark d0).
Proof.
  intros L N. rewrite marked_lookup, (lookup_has_own _ _ _ _ L), L.
  unfold marked. destruct (String.eqb_spec f "_id"); [contradiction |].
  reflexivity.
Qed.

Lemma marked_id A : has_own t0 A = true -> lookup t1 A "_id" = Some id_field.
Proof. intro H. rewrite marked_lookup, H. reflexivity. Qed.

Lemma master_after_mark A f d :
  lookup t1 A f = Some d -> truthy (attr_of d "master") = true ->
  exists d0, lookup t0 A f = Some d0 /\ f <> "_id" /\ d = mark d0 /\
             declares_master d0 = true.
Proof.
  rewrite marked_lookup. destruct (has_own t0 A); [| discriminate].
  unfold marked. destruct (String.eqb_spec f "_id") as [E | N].
  - intro H. injection H as <-. discriminate.
  - destruct (lookup t0 A f) as [d0 |]; [| discriminate].
    simpl. intro H. injection H as <-. rewrite master_of_mark.
    intro M. now exists d0.
Qed.



(** The inverse of a master field that nothing disturbs is in the
    result. *)
Lemma doc_resolve_inverse A F dF B R :
  lookup t0 A F = Some dF ->
  declares_master dF = true ->
  target_of dF = (B, R) ->
  F <> "_id" ->
  R <> "__proto__" ->
  undisturbed t0 A F (B, R) = true ->
  snd (doc_resolve t0) = Returned tt ->
  exists inverse,
    invRelation (attr_of dF "relation") = Returned inverse /\
    lookup (fst (doc_resolve t0)) B R = Some (derived_field A inverse F).
Proof.
  intros L M T NF NR U Hr. rewrite doc_resolve_eq in *.
  rewrite <- (attr_of_mark dF "relation") by discriminate.
  apply (doc_link_inverse t1 A F B R (mark dF)); auto.
  - now apply marked_field.
  - now rewrite master_of_mark.
  - now rewrite target_of_mark.
  - intros A' f' d' L' M' N.
    destruct (master_after_mark A' f' d' L' M') as (d0 & L0 & _ & -> & M0).
    rewrite target_of_mark. now apply (undisturbed_spec t0 A F (B, R) U A' f').
Qed.

(** When every master field has one of the four kinds and a [type]
    that names a collection, both loops return. *)
Lemma doc_resolve_returns :
  well_linked t0 = true -> snd (doc_resolve t0) = Returned tt.
Proof.
  intro W. rewrite doc_resolve_eq. apply doc_link_returns.
  intros A f d L M.
  destruct (master_after_mark A f d L M) as (d0 & L0 & _ & -> & M0).
  rewrite target_of_mark, attr_of_mark by discriminate.
  rewrite marked_has_own. now apply (well_linked_spec t0 W A f).
Qed.

(** A master field whose [type] names no collection and nothing
    [Object.prototype] holds makes the second loop throw a TypeError,
    when the fields before it do not throw and none writes over it. *)
Lemma doc_resolve_throws A F dF :
  lookup t0 A F = Some dF ->
  declares_master dF = true ->
  F <> "_id" ->
  recognized (attr_of dF "relation") = true ->
  has_own t0 (fst (target_of dF)) = false ->
  inherited (fst (target_of dF)) = false ->
  others_well_linked t0 A F = true ->
  snd (doc_resolve t0) = Thrown TypeError.
Proof.
  intros L M NF Hk Ha Hp Ho. rewrite doc_resolve_eq.
  apply (doc_link_throws t1 A F (mark dF)).
  - now apply marked_field.
  - now rewrite master_of_mark.
  - now rewrite attr_of_mark by discriminate.
  - now rewrite target_of_mark, marked_has_own.
  - now rewrite target_of_mark.
  - intros A' f' d' L' M' N.
    destruct (master_after_mark A' f' d' L' M') as (d0 & L0 & _ & -> & M0).
    rewrite target_of_mark, attr_of_mark by discriminate.
    rewrite marked_has_own.
    now apply (others_well_linked_spec t0 A F Ho A' f').
Qed.

End Resolve.

(* ===================================================================== *)
(** ** The store *)
(* ===================================================================== *)

Lemma length_update {X : Type} (l : list X) i x :
  List.length (update l i x) = List.length l.
Proof.
  revert i. induction l as [| y l IH]; intros [| i]; simpl; auto.
Qed.

Lemma nth_update_eq {X : Type} (l : list X) i x d :
  i < List.length l -> nth i (update l i x) d = x.
Proof.
  revert i. induction l as [| y l IH]; intros [| i] H; simpl in *; try lia; auto.
  apply IH. lia.
Qed.

Lemma nth_update_ne {X : Type} (l : list X) i j x d :
  i <> j -> nth j (update l i x) d = nth j l d.
Proof.
  revert i j. induction l as [| y l IH]; intros [| i] [| j] H; simpl; auto.
  congruence.
Qed.

Lemma update_same {X : Type} (l : list X) i d : update l i (nth i l d) = l.
Proof.
  revert i. induction l as [| y l IH]; intros [| i]; simpl; auto.
  now rewrite IH.
Qed.

Lemma update_update {X : Type} (l : list X) i x y :
  update (update l i x) i y = update l i y.
Proof.
  revert i. induction l as [| z l IH]; intros [| i]; simpl; auto.
  now rewrite IH.
Qed.

Lemma update_app_r {X : Type} (l1 l2 : list X) i x :
  List.length l1 <= i -> update (l1 ++ l2) i x = l1 ++ update l2 (i - List.length l1) x.
Proof.
  revert i. induction l1 as [| y l1 IH]; intros i H; simpl in *.
  - now rewrite Nat.sub_0_r.
  - destruct i as [| i]; [lia |]. simpl. rewrite IH by lia. reflexivity.
Qed.

Lemma extends_refl h : extends h h.
Proof. repeat split; exists []; now rewrite app_nil_r. Qed.

Lemma extends_length b h :
  extends b h ->
  List.length (fields_of b) <= List.length (fields_of h) /\
  List.length (collections_of b) <= List.length (collections_of h) /\
  List.length (schemas_of b) <= List.length (schemas_of h).
Proof.
  intros ([x ->] & [y ->] & [z ->]). rewrite !length_app. lia.
Qed.

Lemma extends_alloc_field b h d :
  extends b h -> extends b (fst (alloc_field d h)).
Proof.
  intros ([x E] & C & S). split; [| split]; simpl; auto.
  exists (x ++ [d]). now rewrite E, app_assoc.
Qed.

Lemma extends_alloc_collection b h c :
  extends b h -> extends b (fst (alloc_collection c h)).
Proof.
  intros (F & [x E] & S). split; [| split]; simpl; auto.
  exists (x ++ [c]). now rewrite E, app_assoc.
Qed.

Lemma extends_alloc_schema b h s :
  extends b h -> extends b (fst (alloc_schema s h)).
Proof.
  intros (F & C & [x E]). split; [| split]; simpl; auto.
  exists (x ++ [s]). now rewrite E, app_assoc.
Qed.

Lemma extends_write_field b h l d :
  extends b h -> List.length (fields_of b) <= l -> extends b (write_field l d h).
Proof.
  intros ([x E] & C & S) H. split; [| split]; simpl; auto.
  rewrite E, update_app_r by exact H. eauto.
Qed.

Lemma extends_write_collection b h l c :
  extends b h -> List.length (collections_of b) <= l ->
  extends b (write_collection l c h).
Proof.
  intros (F & [x E] & S) H. split; [| split]; simpl; auto.
  rewrite E, update_app_r by exact H. eauto.
Qed.

Lemma the_field_alloc h d l :
  l < List.length (fields_of h) -> the_field (fst (alloc_field d h)) l = the_field h l.
Proof. intro H. unfold the_field. simpl. now apply app_nth1. Qed.

Lemma the_field_alloc_new h d :
  the_field (fst (alloc_field d h)) (List.length (fields_of h)) = d.
Proof.
  unfold the_field. simpl. rewrite app_nth2 by lia. now rewrite Nat.sub_diag.
Qed.

Lemma the_field_write_eq h l d :
  l < List.length (fields_of h) -> the_field (write_field l d h) l = d.
Proof. intro H. unfold the_field. simpl. now apply nth_update_eq. Qed.

Lemma the_field_write_ne h l d l' :
  l <> l' -> the_field (write_field l d h) l' = the_field h l'.
Proof. intro H. unfold the_field. simpl. now apply nth_update_ne. Qed.

Lemma the_collection_write_eq h l c :
  l < List.length (collections_of h) -> the_collection (write_collection l c h) l = c.
Proof. intro H. unfold the_collection. simpl. now apply nth_update_eq. Qed.

Lemma the_collection_write_ne h l c l' :
  l <> l' -> the_collection (write_collection l c h) l' = the_collection h l'.
Proof. intro H. unfold the_collection. simpl. now apply nth_update_ne. Qed.

(** *** Objects whose values are all different *)

Lemma own_get_loc {V : Type} (o : list (string * V)) k v :
  own_get o k = Some v -> In v (map snd o).
Proof.
  intro H. apply own_get_In in H. apply in_map_iff. now exists (k, v).
Qed.

(** Changing what one value stands for changes one property. *)
Lemma map_values_change_one {V W : Type} (g g' : V -> W) (o : list (string * V)) k v :
  NoDup (map snd o) ->
  own_get o k = Some v ->
  (forall v', In v' (map snd o) -> v' <> v -> g' v' = g v') ->
  map_values g' o = alter_own (map_values g o) k (fun _ => g' v).
Proof.
  induction o as [| [k0 v0] o IH]; simpl; intros N H Hg; [discriminate |].
  inversion N as [| ? ? Hn N']; subst.
  destruct (String.eqb_spec k0 k) as [E | NE].
  - injection H as ->. f_equal.
    unfold map_values. apply map_ext_in. intros [k1 v1] Hin. simpl.
    rewrite Hg; [reflexivity | |].
    + right. apply in_map_iff. now exists (k1, v1).
    + intro E1. subst v1. apply Hn. apply in_map_iff. now exists (k1, v).
  - rewrite Hg.
    + f_equal. apply IH; auto.
    + now left.
    + intro E1. subst v0. apply Hn. now apply (own_get_loc o k).
Qed.

Lemma locs_replace_own (o : props) k l x :
  In x (locs_of (replace_own o k l)) -> x = l \/ In x (locs_of o).
Proof.
  unfold locs_of. induction o as [| [k0 v0] o IH]; simpl; [tauto |].
  destruct (String.eqb k0 k); simpl; intuition.
Qed.

Lemma locs_insert_own (o : props) k l x :
  In x (locs_of (insert_own o k l)) -> x = l \/ In x (locs_of o).
Proof.
  unfold locs_of. induction o as [| [k0 v0] o IH]; simpl; [intuition |].
  destruct (enumerated_before k k0); simpl; intuition.
Qed.

Lemma locs_assign (o : props) k l x :
  In x (locs_of (assign o k l)) -> x = l \/ In x (locs_of o).
Proof.
  unfold assign, own_set.
  destruct (_ && _)%bool; [now right |].
  destruct (has_own o k); [apply locs_replace_own | apply locs_insert_own].
Qed.

Lemma NoDup_replace_own (o : props) k l :
  NoDup (locs_of o) -> ~ In l (locs_of o) -> NoDup (locs_of (replace_own o k l)).
Proof.
  unfold locs_of. induction o as [| [k0 v0] o IH]; simpl; intros N H; [constructor |].
  inversion N as [| ? ? Hn N']; subst.
  destruct (String.eqb k0 k); simpl.
  - constructor; [tauto | exact N'].
  - constructor.
    + intro Hin. apply locs_replace_own in Hin. unfold locs_of in Hin. tauto.
    + apply IH; tauto.
Qed.

Lemma NoDup_insert_own (o : props) k l :
  NoDup (locs_of o) -> ~ In l (locs_of o) -> NoDup (locs_of (insert_own o k l)).
Proof.
  unfold locs_of. induction o as [| [k0 v0] o IH]; simpl; intros N H.
  - constructor; [tauto | constructor].
  - inversion N as [| ? ? Hn N']; subst.
    destruct (enumerated_before k k0); simpl.
    + constructor; [simpl; tauto | exact N].
    + constructor.
      * intro Hin. apply locs_insert_own in Hin. unfold locs_of in Hin. tauto.
      * apply IH; tauto.
Qed.

Lemma NoDup_own_set (o : props) k l :
  NoDup (locs_of o) -> ~ In l (locs_of o) -> NoDup (locs_of (own_set o k l)).
Proof.
  intros N H. unfold own_set.
  destruct (has_own o k); [now apply NoDup_replace_own | now apply NoDup_insert_own].
Qed.

Lemma locs_own_set (o : props) k l x :
  In x (locs_of (own_set o k l)) -> x = l \/ In x (locs_of o).
Proof.
  unfold own_set.
  destruct (has_own o k); [apply locs_replace_own | apply locs_insert_own].
Qed.

Lemma NoDup_assign (o : props) k l :
  NoDup (locs_of o) -> ~ In l (locs_of o) -> NoDup (locs_of (assign o k l)).
Proof.
  intros N H. unfold assign.
  destruct (_ && _)%bool; [exact N | now apply NoDup_own_set].
Qed.

(** *** Writing to the store and to the value *)

Lemma view_of_own_get h sc A :
  own_get (view_of h sc) A
  = option_map (fun l => view_collection h (the_collection h l)) (own_get sc A).
Proof. apply (own_get_map_values (fun l => view_collection h (the_collection h l))). Qed.

Lemma view_collection_own_get h c f :
  own_get (view_collection h c) f = option_map (the_field h) (own_get c f).
Proof. apply (own_get_map_values (the_field h)). Qed.

Lemma holds_lookup b h sc t A cl f :
  holds b h sc t -> own_get sc A = Some cl ->
  lookup t A f = option_map (the_field h) (own_get (the_collection h cl) f).
Proof.
  intros H Hc. unfold lookup, collection_at.
  rewrite <- (holds_value _ _ _ _ H), view_of_own_get, Hc. simpl.
  apply view_collection_own_get.
Qed.

Lemma holds_alloc_field b h sc t d :
  holds b h sc t -> holds b (fst (alloc_field d h)) sc t.
Proof.
  intro H. destruct H as [Hv He Hc Hf Hcn Hfn Hfd].
  constructor; auto.
  - rewrite <- Hv. unfold view_of. apply map_ext_in. intros [k l] Hin. simpl.
    f_equal. unfold view_collection. apply map_ext_in. intros [k' x] Hin'. simpl.
    f_equal. apply the_field_alloc.
    apply (Hf l x).
    + apply in_map_iff. now exists (k, l).
    + apply in_map_iff. now exists (k', x).
  - now apply extends_alloc_field.
  - intros l x Hl Hx. specialize (Hf l x Hl Hx). simpl. rewrite length_app. simpl. lia.
Qed.

Lemma holds_write_collection b h sc t A cl k fl :
  holds b h sc t ->
  own_get sc A = Some cl ->
  List.length (fields_of b) <= fl < List.length (fields_of h) ->
  (forall l, In l (locs_of sc) -> ~ In fl (locs_of (the_collection h l))) ->
  holds b (write_collection cl (assign (the_collection h cl) k fl) h) sc
    (put_member A k (the_field h fl) t).
Proof.
  intros H HA Hfl Hfresh. destruct H as [Hv He Hc Hf Hcn Hfn Hfd].
  set (c' := assign (the_collection h cl) k fl).
  set (h' := write_collection cl c' h).
  assert (Hcl : In cl (locs_of sc)) by now apply (own_get_loc sc A).
  assert (Bcl : cl < List.length (collections_of h)) by now apply Hc.
  assert (Eq : the_collection h' cl = c') by now apply the_collection_write_eq.
  assert (Ne : forall l, l <> cl -> the_collection h' l = the_collection h l).
  { intros l N. apply the_collection_write_ne. congruence. }
  constructor.
  - unfold put_member. rewrite <- Hv.
    change (view_of h' sc)
      with (map_values (fun l => view_collection h (the_collection h' l)) sc).
    rewrite (map_values_change_one
               (fun l => view_collection h (the_collection h l))
               (fun l => view_collection h (the_collection h' l)) sc A cl Hcn HA).
    2:{ intros l _ N. now rewrite Ne. }
    apply alter_own_ext. intros c Hc'.
    change (own_get (view_of h sc) A = Some c) in Hc'.
    rewrite view_of_own_get, HA in Hc'. injection Hc' as <-.
    rewrite Eq. unfold c'. apply (assign_map_values (the_field h)).
  - apply extends_write_collection; [exact He | now apply Hc].
  - intros l Hl. simpl. rewrite length_update. now apply Hc.
  - intros l x Hl Hx. change (fields_of h') with (fields_of h).
    destruct (Nat.eq_dec l cl) as [E | N].
    + subst l. rewrite Eq in Hx. apply locs_assign in Hx.
      destruct Hx as [-> | Hx]; [exact Hfl | now apply (Hf cl)].
    + rewrite Ne in Hx by exact N. now apply (Hf l).
  - exact Hcn.
  - intros l Hl. destruct (Nat.eq_dec l cl) as [E | N].
    + subst l. rewrite Eq. apply NoDup_assign; auto.
    + rewrite Ne by exact N. now apply Hfn.
  - intros l1 l2 x H1 H2 N X1 X2.
    destruct (Nat.eq_dec l1 cl) as [E1 | N1];
      destruct (Nat.eq_dec l2 cl) as [E2 | N2]; try congruence.
    + subst l1. rewrite Eq in X1. rewrite Ne in X2 by exact N2.
      apply locs_assign in X1. destruct X1 as [-> | X1].
      * now apply (Hfresh l2).
      * now apply (Hfd cl l2 x).
    + subst l2. rewrite Eq in X2. rewrite Ne in X1 by exact N1.
      apply locs_assign in X2. destruct X2 as [-> | X2].
      * now apply (Hfresh l1).
      * now apply (Hfd l1 cl x).
    + rewrite Ne in X1, X2 by assumption. now apply (Hfd l1 l2 x).
Qed.

Lemma holds_write_field b h sc t A cl f fl d :
  holds b h sc t ->
  own_get sc A = Some cl ->
  own_get (the_collection h cl) f = Some fl ->
  holds b (write_field fl d h) sc
    (alter_own t A (fun c => alter_own c f (fun _ => d))).
Proof.
  intros H HA Hfl. destruct H as [Hv He Hc Hf Hcn Hfn Hfd].
  set (h' := write_field fl d h).
  assert (Hcl : In cl (locs_of sc)) by now apply (own_get_loc sc A).
  assert (Hin : In fl (locs_of (the_collection h cl)))
    by now apply (own_get_loc _ f).
  assert (Bfl : List.length (fields_of b) <= fl < List.length (fields_of h))
    by now apply (Hf cl).
  constructor; auto.
  - rewrite <- Hv.
    change (view_of h' sc)
      with (map_values (fun l => view_collection h' (the_collection h l)) sc).
    rewrite (map_values_change_one
               (fun l => view_collection h (the_collection h l))
               (fun l => view_collection h' (the_collection h l)) sc A cl Hcn HA).
    2:{ intros l Hl N. unfold view_collection. apply map_ext_in.
        intros [k x] Hx. simpl. f_equal. apply the_field_write_ne.
        intro E. subst x. apply (Hfd cl l fl); auto.
        apply in_map_iff. now exists (k, fl). }
    apply alter_own_ext. intros c Hc'.
    change (own_get (view_of h sc) A = Some c) in Hc'.
    rewrite view_of_own_get, HA in Hc'. injection Hc' as <-.
    change (view_collection h' (the_collection h cl))
      with (map_values (the_field h') (the_collection h cl)).
    rewrite (map_values_change_one (the_field h) (the_field h')
               (the_collection h cl) f fl (Hfn cl Hcl) Hfl).
    2:{ intros x _ N. apply the_field_write_ne. congruence. }
    unfold h'. rewrite the_field_write_eq by lia. reflexivity.
  - apply extends_write_field; [exact He | lia].
  - intros l x Hl Hx. simpl. rewrite length_update. now apply (Hf l).
Qed.

(** *** The loops on the store follow the loops on the value *)

Lemma write_field_twice l x y h :
  write_field l y (write_field l x h) = write_field l y h.
Proof. unfold write_field. simpl. now rewrite update_update. Qed.

Lemma write_field_same l h : write_field l (the_field h l) h = h.
Proof.
  unfold write_field, the_field. rewrite update_same. now destruct h.
Qed.

Lemma mark_field_eq cl f h :
  (forall l, own_get (the_collection h cl) f = Some l ->
             l < List.length (fields_of h)) ->
  mark_field cl f h
  = match own_get (the_collection h cl) f with
    | Some l => (write_field l (mark (the_field h l)) h, Returned tt)
    | None => missing f h
    end.
Proof.
  intro B.
  unfold mark_field, attr, set_attr.
  unfold bind, gets, member, when, modify, ret, leave, throw, missing.
  destruct (own_get (the_collection h cl) f) as [l |] eqn:L.
  2:{ destruct (inherited f); reflexivity. }
  specialize (B l eq_refl).
  unfold mark, default_nullable, mark_master. cbv beta iota.
  destruct (nullish (attr_of (the_field h l) "nullable")); cbv beta iota.
  - rewrite the_field_write_eq by exact B.
    destruct (negb (nullish (attr_of (assign (the_field h l) "nullable" (JBool true))
                               "relation"))).
    + rewrite the_field_write_eq by exact B. now rewrite write_field_twice.
    + reflexivity.
  - destruct (negb (nullish (attr_of (the_field h l) "relation"))).
    + reflexivity.
    + now rewrite write_field_same.
Qed.

Lemma link_field_eq s A cl f h :
  link_field s A cl f h
  = match own_get (the_collection h cl) f with
    | None => missing f h
    | Some l =>
        let d := the_field h l in
        if truthy (attr_of d "master") then
          match invRelation (attr_of d "relation") with
          | Returned inverse =>
              let h1 := fst (alloc_field (derived_field A inverse f) h) in
              match own_get (the_schema h s) (fst (target_of d)) with
              | Some target =>
                  (write_collection target
                     (assign (the_collection h target) (snd (target_of d))
                        (List.length (fields_of h))) h1,
                   Returned tt)
              | None => missing (fst (target_of d)) h1
              end
          | Thrown e => (h, Thrown e)
          | Builtin k => (h, Builtin k)
          end
        else (h, Returned tt)
    end.
Proof.
  unfold link_field, attr, set_member.
  unfold bind, gets, member, when, modify, ret, lift, leave, throw, missing.
  destruct (own_get (the_collection h cl) f) as [l |] eqn:L.
  2:{ destruct (inherited f); reflexivity. }
  cbv beta iota zeta.
  destruct (truthy (attr_of (the_field h l) "master")); [| reflexivity].
  cbv beta iota.
  destruct (invRelation (attr_of (the_field h l) "relation")); try reflexivity.
  unfold target_of. cbn [fst snd alloc_field]. cbv beta iota.
  change (the_schema {| fields_of := fields_of h ++ [derived_field A a f];
                        collections_of := collections_of h;
                        schemas_of := schemas_of h |} s) with (the_schema h s).
  destruct (own_get (the_schema h s) (to_string (attr_of (the_field h l) "type")));
    [reflexivity |].
  destruct (inherited _); reflexivity.
Qed.

Lemma for_each_sim {S1 S2 X : Type} (R : S1 -> S2 -> Prop)
  (body1 : X -> M S1 unit) (body2 : X -> M S2 unit) xs :
  (forall x s1 s2, In x xs -> R s1 s2 ->
                   R (fst (body1 x s1)) (fst (body2 x s2)) /\
                   snd (body1 x s1) = snd (body2 x s2)) ->
  forall s1 s2, R s1 s2 ->
                R (fst (for_each xs body1 s1)) (fst (for_each xs body2 s2)) /\
                snd (for_each xs body1 s1) = snd (for_each xs body2 s2).
Proof.
  induction xs as [| x xs IH]; intros H s1 s2 HR.
  - split; [exact HR | reflexivity].
  - rewrite !for_each_cons.
    destruct (H x s1 s2 (or_introl eq_refl) HR) as [R1 E1].
    destruct (body1 x s1) as [s1' o1], (body2 x s2) as [s2' o2]; simpl in *.
    subst o2. destruct o1 as [[] | e | k]; simpl; [| now split | now split].
    apply IH; [| exact R1]. intros y t1 t2 Hy. apply H. now right.
Qed.

Lemma models_keys b s sc h t A cl :
  models b s sc h t -> own_get sc A = Some cl ->
  keys (the_collection h cl) = keys (collection_at t A).
Proof.
  intros [_ H] HA. unfold collection_at.
  rewrite <- (holds_value _ _ _ _ H), view_of_own_get, HA. simpl.
  symmetry. apply (keys_map_values (the_field h)).
Qed.

Lemma models_own_get b s sc h t A :
  models b s sc h t ->
  own_get t A
  = option_map (fun l => view_collection h (the_collection h l)) (own_get sc A).
Proof.
  intros [_ H]. rewrite <- (holds_value _ _ _ _ H). apply view_of_own_get.
Qed.

Lemma sim_mark_field b s sc A cl f h t :
  own_get sc A = Some cl ->
  models b s sc h t ->
  models b s sc (fst (mark_field cl f h)) (fst (doc_mark_field A f t)) /\
  snd (mark_field cl f h) = snd (doc_mark_field A f t).
Proof.
  intros HA [Hs H].
  assert (Hcl : In cl (locs_of sc)) by now apply (own_get_loc sc A).
  rewrite mark_field_eq, doc_mark_field_eq.
  2:{ intros l Hl. apply (holds_fields _ _ _ _ H cl l Hcl).
      now apply (own_get_loc _ f). }
  rewrite (holds_lookup b h sc t A cl f H HA).
  destruct (own_get (the_collection h cl) f) as [l |] eqn:L; simpl.
  - split; [| reflexivity]. split; [exact Hs |].
    replace (alter_own t A (fun c => alter_own c f mark))
      with (alter_own t A (fun c => alter_own c f (fun _ => mark (the_field h l)))).
    + now apply (holds_write_field b h sc t A cl f l).
    + apply alter_own_ext. intros c Hc. apply alter_own_ext. intros d Hd.
      pose proof (holds_lookup b h sc t A cl f H HA) as E.
      unfold lookup, collection_at in E. rewrite Hc, Hd, L in E.
      injection E as ->. reflexivity.
  - unfold missing. simpl. split; [now split |].
    destruct (inherited f); reflexivity.
Qed.

Lemma sim_mark_collection b s sc A h t :
  In A (keys sc) ->
  models b s sc h t ->
  models b s sc (fst (mark_collection s A h)) (fst (doc_mark_collection A t)) /\
  snd (mark_collection s A h) = snd (doc_mark_collection A t).
Proof.
  intros HA [Hs H].
  apply own_get_keys in HA. apply has_own_get in HA. destruct HA as [cl HA].
  assert (Hcl : In cl (locs_of sc)) by now apply (own_get_loc sc A).
  unfold mark_collection, doc_mark_collection, bind, gets, member, set_member,
    modify, ret.
  rewrite Hs, HA, (models_own_get b s sc h t A (conj Hs H)), HA. simpl.
  set (h1 := {| fields_of := fields_of h ++ [id_field];
                collections_of := collections_of h;
                schemas_of := schemas_of h |}).
  assert (H1 : holds b h1 sc t) by apply (holds_alloc_field b h sc t id_field H).
  set (fl := List.length (fields_of h)).
  assert (Efl : the_field h1 fl = id_field) by apply the_field_alloc_new.
  assert (M2 : models b s sc
                 (write_collection cl (assign (the_collection h1 cl) "_id" fl) h1)
                 (put_member A "_id" id_field t)).
  { split; [exact Hs |]. rewrite <- Efl.
    apply holds_write_collection; auto.
    - pose proof (extends_length _ _ (holds_extends _ _ _ _ H)).
      unfold fl, h1. simpl. rewrite length_app. simpl. lia.
    - intros l Hl Hin. pose proof (holds_fields _ _ _ _ H l fl Hl Hin).
      unfold fl in *. lia. }
  rewrite (models_keys b s sc _ _ A cl M2 HA).
  apply (for_each_sim (models b s sc)); [| exact M2].
  intros f h' t' _ M'. now apply sim_mark_field.
Qed.

Lemma sim_link_field b s sc A cl f h t :
  own_get sc A = Some cl ->
  models b s sc h t ->
  models b s sc (fst (link_field s A cl f h)) (fst (doc_link_field A f t)) /\
  snd (link_field s A cl f h) = snd (doc_link_field A f t).
Proof.
  intros HA [Hs H].
  rewrite link_field_eq, doc_link_field_eq.
  rewrite (holds_lookup b h sc t A cl f H HA).
  destruct (own_get (the_collection h cl) f) as [l |] eqn:L; simpl.
  2:{ unfold missing. simpl. split; [now split |].
      destruct (inherited f); reflexivity. }
  destruct (truthy (attr_of (the_field h l) "master"));
    [| cbn [fst snd]; split; [split; assumption | reflexivity]].
  destruct (invRelation (attr_of (the_field h l) "relation")) as [inv | e | k];
    [| cbn [fst snd]; split; [split; assumption | reflexivity]
     | cbn [fst snd]; split; [split; assumption | reflexivity]].
  set (d := derived_field A inv f).
  set (h1 := {| fields_of := fields_of h ++ [d];
                collections_of := collections_of h;
                schemas_of := schemas_of h |}).
  assert (H1 : holds b h1 sc t) by apply (holds_alloc_field b h sc t d H).
  set (fl := List.length (fields_of h)).
  assert (Efl : the_field h1 fl = d) by apply the_field_alloc_new.
  rewrite Hs, (models_own_get b s sc h t _ (conj Hs H)).
  destruct (own_get sc (to_string (attr_of (the_field h l) "type")))
    as [target |] eqn:T; simpl.
  - split; [| reflexivity]. split; [exact Hs |]. rewrite <- Efl.
    apply (holds_write_collection b h1 sc t _ target); auto.
    + pose proof (extends_length _ _ (holds_extends _ _ _ _ H)).
      unfold fl, h1. simpl. rewrite length_app. simpl. lia.
    + intros l' Hl Hin. pose proof (holds_fields _ _ _ _ H l' fl Hl Hin).
      unfold fl in *. lia.
  - unfold missing. simpl. split; [now split |].
    destruct (inherited _); reflexivity.
Qed.

Lemma sim_link_collection b s sc A h t :
  In A (keys sc) ->
  models b s sc h t ->
  models b s sc (fst (link_collection s A h)) (fst (doc_link_collection A t)) /\
  snd (link_collection s A h) = snd (doc_link_collection A t).
Proof.
  intros HA [Hs H].
  apply own_get_keys in HA. apply has_own_get in HA. destruct HA as [cl HA].
  unfold link_collection, doc_link_collection, bind, gets, member, ret.
  rewrite Hs, HA, (models_own_get b s sc h t A (conj Hs H)), HA. simpl.
  rewrite (models_keys b s sc h t A cl (conj Hs H) HA).
  apply (for_each_sim (models b s sc)); [| now split].
  intros f h' t' _ M'. now apply sim_link_field.
Qed.

(** *** JSON.parse builds new objects *)

Lemma extends_trans a b c : extends a b -> extends b c -> extends a c.
Proof.
  intros ([x1 E1] & [y1 F1] & [z1 G1]) ([x2 E2] & [y2 F2] & [z2 G2]).
  split; [| split].
  - exists (x1 ++ x2). now rewrite E2, E1, app_assoc.
  - exists (y1 ++ y2). now rewrite F2, F1, app_assoc.
  - exists (z1 ++ z2). now rewrite G2, G1, app_assoc.
Qed.

Lemma extends_the_field h h' l :
  extends h h' -> l < List.length (fields_of h) -> the_field h' l = the_field h l.
Proof.
  intros ([x E] & _) H. unfold the_field. rewrite E. now apply app_nth1.
Qed.

Lemma extends_the_collection h h' l :
  extends h h' -> l < List.length (collections_of h) ->
  the_collection h' l = the_collection h l.
Proof.
  intros (_ & [x E] & _) H. unfold the_collection. rewrite E. now apply app_nth1.
Qed.

Lemma extends_the_schema h h' l :
  extends h h' -> l < List.length (schemas_of h) -> the_schema h' l = the_schema h l.
Proof.
  intros (_ & _ & [x E]) H. unfold the_schema. rewrite E. now apply app_nth1.
Qed.

Lemma view_collection_extends h h' (c : props) :
  extends h h' ->
  (forall x, In x (locs_of c) -> x < List.length (fields_of h)) ->
  view_collection h' c = view_collection h c.
Proof.
  intros E B. unfold view_collection. apply map_ext_in. intros [k x] Hin. simpl.
  f_equal. apply (extends_the_field h h' x E). apply B.
  apply in_map_iff. now exists (k, x).
Qed.

Lemma holds_grow b h h' sc t :
  holds b h sc t -> extends h h' -> holds b h' sc t.
Proof.
  intros H E. destruct H as [Hv He Hc Hf Hcn Hfn Hfd].
  pose proof (extends_length _ _ E) as (LF & LC & LS).
  assert (C : forall l, In l (locs_of sc) -> the_collection h' l = the_collection h l).
  { intros l Hl. apply (extends_the_collection h h' l E). now apply Hc. }
  constructor.
  - rewrite <- Hv. unfold view_of. apply map_ext_in. intros [k l] Hin. simpl.
    assert (Hl : In l (locs_of sc)) by (apply in_map_iff; now exists (k, l)).
    rewrite (C l Hl). f_equal. apply view_collection_extends; [exact E |].
    intros x Hx. now apply (Hf l x).
  - eapply extends_trans; eauto.
  - intros l Hl. specialize (Hc l Hl). lia.
  - intros l x Hl Hx. rewrite (C l Hl) in Hx. specialize (Hf l x Hl Hx). lia.
  - exact Hcn.
  - intros l Hl. rewrite (C l Hl). now apply Hfn.
  - intros l1 l2 x H1 H2 N. rewrite (C l1 H1), (C l2 H2). now apply Hfd.
Qed.

Lemma parse_members_spec lo ms :
  forall acc h,
    lo <= List.length (fields_of h) ->
    NoDup (locs_of acc) ->
    (forall x, In x (locs_of acc) -> lo <= x < List.length (fields_of h)) ->
    exists h' acc',
      parse_members ms acc h = (h', Returned acc') /\
      extends h h' /\
      collections_of h' = collections_of h /\
      schemas_of h' = schemas_of h /\
      NoDup (locs_of acc') /\
      (forall x, In x (locs_of acc') -> lo <= x < List.length (fields_of h')) /\
      view_collection h' acc'
      = fold_left (fun o m => own_set o (fst m) (object_of (snd m))) ms
          (view_collection h acc).
Proof.
  induction ms as [| [k d] ms IH]; intros acc h Hlo N B.
  - exists h, acc. simpl. unfold ret.
    split; [reflexivity |]. split; [apply extends_refl |]. auto.
  - simpl. unfold bind, alloc_field.
    set (h1 := {| fields_of := fields_of h ++ [object_of d];
                  collections_of := collections_of h;
                  schemas_of := schemas_of h |}).
    set (l := List.length (fields_of h)).
    assert (E1 : extends h h1).
    { split; [| split]; simpl; [eauto | |]; exists []; now rewrite app_nil_r. }
    assert (L1 : List.length (fields_of h1) = S l).
    { unfold h1, l. simpl. rewrite length_app. simpl. lia. }
    destruct (IH (own_set acc k l) h1) as (h' & acc' & E & Ex & C & S & N' & B' & V).
    + lia.
    + apply NoDup_own_set; [exact N |]. intro Hin. specialize (B l Hin).
      unfold l in B. lia.
    + intros x Hx. apply locs_own_set in Hx. destruct Hx as [-> | Hx].
      * unfold l in *. lia.
      * specialize (B x Hx). lia.
    + exists h', acc'. split; [exact E |]. split; [eapply extends_trans; eauto |].
      split; [now rewrite C |]. split; [now rewrite S |].
      split; [exact N' |]. split; [exact B' |].
      rewrite V. f_equal.
      change (view_collection h1 (own_set acc k l))
        with (map_values (the_field h1) (own_set acc k l)).
      rewrite own_set_map_values. f_equal.
      * apply (view_collection_extends h h1 acc E1). intros x Hx.
        now apply B.
      * apply (the_field_alloc_new h (object_of d)).
Qed.

Lemma fold_left_map {X Y Z : Type} (f : Z -> Y -> Z) (g : X -> Y) l a :
  fold_left f (map g l) a = fold_left (fun a x => f a (g x)) l a.
Proof.
  revert a. induction l as [| x l IH]; intro a; simpl; [reflexivity | apply IH].
Qed.

Lemma holds_new_collection b h sc t k l :
  holds b h sc t ->
  List.length (collections_of b) <= l < List.length (collections_of h) ->
  ~ In l (locs_of sc) ->
  NoDup (locs_of (the_collection h l)) ->
  (forall x, In x (locs_of (the_collection h l)) ->
             List.length (fields_of b) <= x < List.length (fields_of h)) ->
  (forall l' x, In l' (locs_of sc) -> In x (locs_of (the_collection h l)) ->
                ~ In x (locs_of (the_collection h l'))) ->
  holds b h (own_set sc k l)
    (own_set t k (view_collection h (the_collection h l))).
Proof.
  intros H Bl Nl Nc Bc D. destruct H as [Hv He Hc Hf Hcn Hfn Hfd].
  constructor; auto.
  - rewrite <- Hv.
    apply (own_set_map_values (fun l => view_collection h (the_collection h l))).
  - intros l' Hl'. apply locs_own_set in Hl'. destruct Hl' as [-> | Hl']; auto.
  - intros l' x Hl' Hx. apply locs_own_set in Hl'.
    destruct Hl' as [-> | Hl']; [now apply Bc | now apply (Hf l')].
  - now apply NoDup_own_set.
  - intros l' Hl'. apply locs_own_set in Hl'.
    destruct Hl' as [-> | Hl']; [exact Nc | now apply Hfn].
  - intros l1 l2 x H1 H2 N X1 X2.
    apply locs_own_set in H1, H2.
    destruct H1 as [-> | H1]; destruct H2 as [-> | H2]; try congruence.
    + now apply (D l2 x).
    + now apply (D l1 x).
    + now apply (Hfd l1 l2 x).
Qed.

Lemma parse_collections_spec b cs :
  forall acc h t,
    holds b h acc t ->
    exists h' acc',
      parse_collections cs acc h = (h', Returned acc') /\
      schemas_of h' = schemas_of h /\
      holds b h' acc'
        (fold_left
           (fun o c =>
              own_set o (fst c)
                (object_of (map (fun m => (fst m, object_of (snd m))) (snd c))))
           cs t).
Proof.
  induction cs as [| [k ms] cs IH]; intros acc h t H.
  - exists h, acc. simpl. unfold ret. auto.
  - simpl. unfold bind.
    pose proof (extends_length _ _ (holds_extends _ _ _ _ H)) as (LF & LC & LS).
    destruct (parse_members_spec (List.length (fields_of h)) ms [] h)
      as (h1 & c & E1 & X1 & C1 & S1 & N1 & B1 & V1).
    { lia. } { constructor. } { intros x []. }
    rewrite E1. unfold alloc_collection.
    set (h2 := {| fields_of := fields_of h1;
                  collections_of := collections_of h1 ++ [c];
                  schemas_of := schemas_of h1 |}).
    set (l := List.length (collections_of h1)).
    assert (X2 : extends h1 h2).
    { split; [| split]; simpl; [| eauto |]; exists []; now rewrite app_nil_r. }
    assert (X : extends h h2) by (eapply extends_trans; eauto).
    assert (El : the_collection h2 l = c).
    { unfold the_collection, h2, l. simpl. rewrite app_nth2 by lia.
      now rewrite Nat.sub_diag. }
    assert (H2 : holds b h2 acc t) by (eapply holds_grow; eauto).
    assert (Ll : l = List.length (collections_of h)) by (unfold l; now rewrite C1).
    destruct (IH (own_set acc k l) h2
                (own_set t k (view_collection h2 (the_collection h2 l))))
      as (h' & acc' & E & S & H').
    + apply holds_new_collection; auto.
      * unfold h2. simpl. rewrite length_app. simpl. fold l. lia.
      * intro Hin. pose proof (holds_collections _ _ _ _ H l Hin). lia.
      * now rewrite El.
      * rewrite El. intros x Hx. specialize (B1 x Hx).
        change (fields_of h2) with (fields_of h1). lia.
      * rewrite El. intros l' x Hl' Hx Hx'. specialize (B1 x Hx).
        assert (Cl : the_collection h2 l' = the_collection h l').
        { apply (extends_the_collection h h2 l' X).
          now apply (holds_collections _ _ _ _ H). }
        rewrite Cl in Hx'.
        pose proof (holds_fields _ _ _ _ H l' x Hl' Hx'). lia.
    + exists h', acc'. split; [exact E |]. split; [now rewrite S, <- S1 |].
      replace (object_of (map (fun m => (fst m, object_of (snd m))) ms))
        with (view_collection h2 (the_collection h2 l)); [exact H' |].
      rewrite El. rewrite (view_collection_extends h1 h2 c X2).
      * rewrite V1. unfold object_of at 2. now rewrite fold_left_map.
      * intros x Hx. now apply B1.
Qed.

Lemma JSON_parse_spec h text :
  exists h' s,
    JSON_parse text h = (h', Returned s) /\
    represents h h' s (parse_value text).
Proof.
  unfold JSON_parse, bind.
  destruct (parse_collections_spec h text [] h []) as (h1 & sc & E & S & H).
  { constructor; try (intros; contradiction).
    - reflexivity.
    - apply extends_refl.
    - constructor. }
  rewrite E. unfold alloc_schema.
  eexists. eexists. split; [reflexivity |].
  set (h2 := {| fields_of := fields_of h1;
                collections_of := collections_of h1;
                schemas_of := schemas_of h1 ++ [sc] |}).
  assert (X2 : extends h1 h2).
  { split; [| split]; simpl; [| | eauto]; exists []; now rewrite app_nil_r. }
  split.
  - unfold h2. simpl. rewrite length_app, S. simpl. lia.
  - replace (the_schema h2 (List.length (schemas_of h1))) with sc.
    + unfold parse_value, object_of at 1. rewrite fold_left_map.
      eapply holds_grow; eauto.
    + unfold the_schema, h2. simpl. rewrite app_nth2 by lia.
      now rewrite Nat.sub_diag.
Qed.

(** *** The constructor *)

Lemma represents_models b h s t :
  represents b h s t -> models b s (the_schema h s) h t.
Proof. intros [_ H]. now split. Qed.

Lemma models_keys_schema b s sc h t : models b s sc h t -> keys t = keys sc.
Proof.
  intros [_ H]. rewrite <- (holds_value _ _ _ _ H).
  apply (keys_map_values (fun l => view_collection h (the_collection h l))).
Qed.

Lemma models_field_at b s sc h t A f :
  models b s sc h t -> field_at h s A f = lookup t A f.
Proof.
  intros [Hs H]. unfold field_at, lookup, collection_at.
  rewrite Hs, <- (holds_value _ _ _ _ H), view_of_own_get.
  destruct (own_get sc A) as [cl |]; simpl; [| reflexivity].
  rewrite view_collection_own_get.
  now destruct (own_get (the_collection h cl) f).
Qed.


Lemma constructor_eq config h h1 s :
  JSON_parse (JSON_stringify h (schema config)) h = (h1, Returned s) ->
  constructor config h
  = match for_each (keys (the_schema h1 s)) (mark_collection s) h1 with
    | (h2, Returned _) =>
        match for_each (keys (the_schema h2 s)) (link_collection s) h2 with
        | (h3, Returned _) =>
            (h3, Returned {| _database := database config;
                             _collections := s;
                             conn := None |})
        | (h3, Thrown e) => (h3, Thrown e)
        | (h3, Builtin k) => (h3, Builtin k)
        end
    | (h2, Thrown e) => (h2, Thrown e)
    | (h2, Builtin k) => (h2, Builtin k)
    end.
Proof.
  intro E. unfold constructor, bind, gets, ret. rewrite E.
  destruct (for_each _ (mark_collection s) h1) as [h2 [[] | e | k]];
    try reflexivity.
  destruct (for_each _ (link_collection s) h2) as [h3 [[] | e | k]];
    try reflexivity.
  now destruct (database config).
Qed.

Lemma doc_resolve_loops t :
  doc_resolve t
  = match for_each (keys t) doc_mark_collection t with
    | (t2, Returned _) => for_each (keys t2) doc_link_collection t2
    | (t2, Thrown e) => (t2, Thrown e)
    | (t2, Builtin k) => (t2, Builtin k)
    end.
Proof. reflexivity. Qed.

(** The constructor acts on the store as both loops act on the value of
    the copy, and leaves every object of the caller as it was. *)
Lemma constructor_spec config h :
  exists s sc,
    models h s sc (fst (constructor config h))
      (fst (doc_resolve (document h config))) /\
    match snd (doc_resolve (document h config)) with
    | Returned _ =>
        snd (constructor config h)
        = Returned {| _database := database config;
                      _collections := s;
                      conn := None |}
    | Thrown e => snd (constructor config h) = Thrown e
    | Builtin k => snd (constructor config h) = Builtin k
    end.
Proof.
  destruct (JSON_parse_spec h (JSON_stringify h (schema config)))
    as (h1 & s & E & R).
  rewrite (constructor_eq config h h1 s E), doc_resolve_loops.
  unfold document.
  set (t := parse_value (JSON_stringify h (schema config))) in *.
  set (sc := the_schema h1 s).
  assert (M1 : models h s sc h1 t) by now apply represents_models.
  exists s, sc.
  replace (keys t) with (keys sc) by (symmetry; eapply models_keys_schema; eauto).
  destruct (for_each_sim (models h s sc) (mark_collection s) doc_mark_collection
              (keys sc)) with (s1 := h1) (s2 := t) as [M2 O2].
  { intros A h' t' HA M'. now apply sim_mark_collection. }
  { exact M1. }
  destruct (for_each (keys sc) (mark_collection s) h1) as [h2 o2].
  destruct (for_each (keys sc) doc_mark_collection t) as [t2 o2'].
  simpl in M2, O2. subst o2'.
  destruct o2 as [[] | e | k]; simpl; [| now split | now split].
  replace (keys t2) with (keys sc) by (symmetry; eapply models_keys_schema; eauto).
  replace (the_schema h2 s) with sc by (symmetry; apply (proj1 M2)).
  destruct (for_each_sim (models h s sc) (link_collection s) doc_link_collection
              (keys sc)) with (s1 := h2) (s2 := t2) as [M3 O3].
  { intros A h' t' HA M'. now apply sim_link_collection. }
  { exact M2. }
  destruct (for_each (keys sc) (link_collection s) h2) as [h3 o3].
  destruct (for_each (keys sc) doc_link_collection t2) as [t3 o3'].
  simpl in M3, O3. subst o3'.
  destruct o3 as [[] | e | k]; simpl; now split.
Qed.

(** *** Where the fields of the result come from *)



(* ===================================================================== *)
(** ** The resolved schema *)
(* ===================================================================== *)

Lemma constructor_returned config h h' this :
  constructor config h = (h', Returned this) ->
  snd (doc_resolve (document h config)) = Returned tt /\
  models h (_collections this) (the_schema h' (_collections this)) h'
    (fst (doc_resolve (document h config))).
Proof.
  intro E. destruct (constructor_spec config h) as (s & sc & M & O).
  rewrite E in M, O. simpl in M, O.
  destruct (snd (doc_resolve (document h config))) as [[] | e | k];
    try discriminate.
  injection O as ->. simpl. split; [reflexivity |].
  destruct M as [Hs H]. rewrite Hs. now split.
Qed.

Lemma constructor_returns config h :
  snd (doc_resolve (document h config)) = Returned tt ->
  exists this,
    snd (constructor config h) = Returned this /\
    models h (_collections this)
      (the_schema (fst (constructor config h)) (_collections this))
      (fst (constructor config h)) (fst (doc_resolve (document h config))).
Proof.
  intro R. destruct (constructor_spec config h) as (s & sc & M & O).
  rewrite R in O. eexists. split; [exact O |]. simpl.
  destruct M as [Hs H]. rewrite Hs. now split.
Qed.

Lemma constructor_throws config h e :
  snd (doc_resolve (document h config)) = Thrown e ->
  snd (constructor config h) = Thrown e.
Proof.
  intro R. destruct (constructor_spec config h) as (s & sc & M & O).
  now rewrite R in O.
Qed.

Lemma view_extends h h' s :
  extends h h' -> closed h s = true -> view h' s = view h s.
Proof.
  intros E C. unfold closed in C. apply andb_true_iff in C. destruct C as [Cs C].
  apply Nat.ltb_lt in Cs. rewrite forallb_forall in C.
  unfold view. rewrite (extends_the_schema h h' s E Cs).
  apply map_ext_in. intros [k l] Hin. simpl.
  assert (Hl : In l (locs_of (the_schema h s)))
    by (apply in_map_iff; now exists (k, l)).
  specialize (C l Hl). apply andb_true_iff in C. destruct C as [Cl Cf].
  apply Nat.ltb_lt in Cl. rewrite forallb_forall in Cf.
  rewrite (extends_the_collection h h' l E Cl). f_equal.
  apply (view_collection_extends h h' _ E).
  intros x Hx. apply Nat.ltb_lt. now apply Cf.
Qed.

(** C5.  The constructor works on a copy: whether it returns or throws,
    every object the store held before the call is in the store after
    the call as it was, and the caller's document, read through
    [config.schema], is field for field what it was. *)
Theorem constructor_keeps_caller_objects (config : Config) (h : heap) :
  ((exists new, fields_of (fst (constructor config h)) = fields_of h ++ new) /\
   (exists new,
       collections_of (fst (constructor config h)) = collections_of h ++ new) /\
   (exists new, schemas_of (fst (constructor config h)) = schemas_of h ++ new)) /\
  (closed h (schema config) = true ->
   view (fst (constructor config h)) (schema config) = view h (schema config)).
Proof.
  destruct (constructor_spec config h) as (s & sc & [_ H] & _).
  pose proof (holds_extends _ _ _ _ H) as E.
  split; [exact E |]. intro C. now apply view_extends.
Qed.

Lemma constructor_keeps_caller_objects_witness :
  closed (literal_heap user_profile) (schema (literal_config user_profile)) = true /\
  view (fst (constructed user_profile)) (schema (literal_config user_profile))
  = user_profile.
Proof.
  assert (C : closed (literal_heap user_profile)
                (schema (literal_config user_profile)) = true) by reflexivity.
  split; [exact C |]. unfold constructed.
  rewrite (proj2 (constructor_keeps_caller_objects
                    (literal_config user_profile) (literal_heap user_profile)) C).
  reflexivity.
Defined.




(** The field [_id] the constructor writes has the string ["false"] for
    [nullable]. *)
Lemma identity_field_nullable :
  exists h' this,
    constructed one_collection = (h', Returned this) /\
    field_at h' (_collections this) "User" "_id"
    = Some [("type", JStr "int"); ("nullable", JStr "false")].
Proof.
  eexists. eexists. split; [vm_compute; reflexivity | reflexivity].
Qed.

Lemma declared_relation_is_master d K :
  attr_of d "relation" = JStr K -> declares_master d = true.
Proof. unfold declares_master. now intros ->. Qed.

Lemma declared_target d B R :
  attr_of d "type" = JStr B -> attr_of d "as" = JStr R -> target_of d = (B, R).
Proof. unfold target_of. now intros -> ->. Qed.

(** C2, as the code has it.  On a document whose master fields have
    own targets (no [type] is a name the schema object only inherits
    from [Object.prototype], so that every inverse is written in the
    schema), the inverse of a master field [F] of collection [A] with
    [type = B], [as = R] and relation kind [K] is, in the resolved
    schema, the field [R] of [B], with [type = A], [nullable = false],
    [relation = inverse(K)], [as = F] and no [master], provided that
    [F] is not [_id], [R] is not [__proto__], and no other master field
    has [B.R] or [A.F] for the place of its inverse. *)
Theorem inverse_of_undisturbed_master
  (config : Config) (h h' : heap) (this : Restify)
  (A F B R K : string) (dF : descriptor) :
  own_targets (document h config) = true ->
  constructor config h = (h', Returned this) ->
  lookup (document h config) A F = Some dF ->
  attr_of dF "type" = JStr B ->
  attr_of dF "as" = JStr R ->
  attr_of dF "relation" = JStr K ->
  F <> "_id" ->
  R <> "__proto__" ->
  undisturbed (document h config) A F (B, R) = true ->
  exists inverse d,
    invRelation (JStr K) = Returned inverse /\
    field_at h' (_collections this) B R = Some d /\
    attr_of d "type" = JStr A /\
    attr_of d "nullable" = JBool false /\
    attr_of d "relation" = inverse /\
    attr_of d "as" = JStr F /\
    attr_of d "master" = JUndef.
Proof.
  intros _ E L HB HR HK NF NR U.
  destruct (constructor_returned config h h' this E) as [Ret M].
  destruct (doc_resolve_inverse (document h config) A F dF B R)
    as (inverse & Hi & Hl); auto.
  - now apply (declared_relation_is_master dF K).
  - now apply declared_target.
  - exists inverse, (derived_field A inverse F).
    split; [now rewrite <- HK |]. split; [| repeat split].
    now rewrite (models_field_at _ _ _ _ _ B R M).
Qed.

Lemma inverse_of_undisturbed_master_witness :
  exists inverse d,
    invRelation (JStr "OneToOne") = Returned inverse /\
    field_at (fst (constructed user_profile)) 1 "Profile" "owner" = Some d /\
    attr_of d "type" = JStr "User" /\
    attr_of d "nullable" = JBool false /\
    attr_of d "relation" = inverse /\
    attr_of d "as" = JStr "profile" /\
    attr_of d "master" = JUndef.
Proof.
  apply (inverse_of_undisturbed_master
           (literal_config user_profile) (literal_heap user_profile)
           (fst (constructed user_profile))
           {| _database := database (literal_config user_profile);
              _collections := 1; conn := None |}
           "User" "profile" "Profile" "owner" "OneToOne"
           [("type", JStr "Profile"); ("relation", JStr "OneToOne");
            ("as", JStr "owner")]).
  - vm_compute. reflexivity.
  - vm_compute. reflexivity.
  - vm_compute. reflexivity.
  - reflexivity.
  - reflexivity.
  - reflexivity.
  - discriminate.
  - discriminate.
  - vm_compute. reflexivity.
Defined.

(** C2 as stated fails: of two master fields with the same [type] and
    [as], the inverse of the second is written over the inverse of the
    first. *)
Lemma second_inverse_replaces_first :
  exists h' this d,
    constructed shared_target = (h', Returned this) /\
    lookup (document (literal_heap shared_target) (literal_config shared_target))
      "User" "a"
    = Some [("type", JStr "Profile"); ("relation", JStr "OneToOne");
            ("as", JStr "owner")] /\
    field_at h' (_collections this) "Profile" "owner" = Some d /\
    attr_of d "relation" = JStr "ManyToOne" /\
    attr_of d "as" = JStr "b" /\
    attr_of d "as" <> JStr "a".
Proof.
  eexists. eexists. eexists. split; [vm_compute; reflexivity |].
  split; [vm_compute; reflexivity |]. split; [reflexivity |].
  split; [reflexivity |]. split; [reflexivity | discriminate].
Qed.

(** C6, as the code has it.  A master field whose [as] names a field
    its target already has does not make the constructor throw.  When
    every master field has one of the four relation kinds and a [type]
    that names a collection, the constructor returns; the field of that
    name is then the inverse, which has replaced the field that was
    there, provided no other master field has the same place or the
    master field itself for the place of its inverse. *)
Theorem name_conflict_is_overwritten
  (config : Config) (h : heap)
  (A F B R K : string) (dF old : descriptor) :
  well_linked (document h config) = true ->
  lookup (document h config) A F = Some dF ->
  attr_of dF "type" = JStr B ->
  attr_of dF "as" = JStr R ->
  attr_of dF "relation" = JStr K ->
  lookup (document h config) B R = Some old ->
  F <> "_id" ->
  R <> "__proto__" ->
  undisturbed (document h config) A F (B, R) = true ->
  exists this inverse,
    snd (constructor config h) = Returned this /\
    invRelation (JStr K) = Returned inverse /\
    field_at (fst (constructor config h)) (_collections this) B R
    = Some (derived_field A inverse F).
Proof.
  intros W L HB HR HK Hold NF NR U.
  pose proof (doc_resolve_returns (document h config) W) as Ret.
  destruct (constructor_returns config h Ret) as (this & E & M).
  destruct (doc_resolve_inverse (document h config) A F dF B R)
    as (inverse & Hi & Hl); auto.
  - now apply (declared_relation_is_master dF K).
  - now apply declared_target.
  - exists this, inverse. split; [exact E |]. split; [now rewrite <- HK |].
    now rewrite (models_field_at _ _ _ _ _ B R M).
Qed.

Lemma name_conflict_is_overwritten_witness :
  exists this inverse,
    snd (constructed name_conflict) = Returned this /\
    invRelation (JStr "OneToOne") = Returned inverse /\
    field_at (fst (constructed name_conflict)) (_collections this) "Profile" "bio"
    = Some (derived_field "User" inverse "profile").
Proof.
  apply (name_conflict_is_overwritten
           (literal_config name_conflict) (literal_heap name_conflict)
           "User" "profile" "Profile" "bio" "OneToOne"
           [("type", JStr "Profile"); ("relation", JStr "OneToOne");
            ("as", JStr "bio")]
           [("type", JStr "string")]).
  - vm_compute. reflexivity.
  - vm_compute. reflexivity.
  - reflexivity.
  - reflexivity.
  - reflexivity.
  - vm_compute. reflexivity.
  - discriminate.
  - discriminate.
  - vm_compute. reflexivity.
Defined.

(** C6 as stated fails: the constructor returns, and the declared field
    [bio] of [Profile] has been replaced by the inverse of
    [User.profile]. *)
Lemma declared_field_is_replaced :
  exists h' this,
    constructed name_conflict = (h', Returned this) /\
    lookup (document (literal_heap name_conflict) (literal_config name_conflict))
      "Profile" "bio"
    = Some [("type", JStr "string")] /\
    field_at h' (_collections this) "Profile" "bio"
    = Some (derived_field "User" (JStr "OneToOne") "profile").
Proof.
  eexists. eexists. split; [vm_compute; reflexivity |].
  split; [vm_compute; reflexivity | reflexivity].
Qed.

(** C8, as the code has it.  A name that is neither a collection nor a
    property of [Object.prototype] makes the engine throw a TypeError
    where it is used as a collection: in [fields], and in the
    constructor when the second loop reaches a master field with that
    [type], which it does when the other master fields have one of the
    four kinds and a [type] that names a collection, and none has that
    field for the place of its inverse.  No service is returned then. *)
Theorem absent_collection_throws :
  (forall (config : Config) (h : heap) (A F : string) (dF : descriptor),
      lookup (document h config) A F = Some dF ->
      declares_master dF = true ->
      F <> "_id" ->
      recognized (attr_of dF "relation") = true ->
      has_own (document h config) (fst (target_of dF)) = false ->
      inherited (fst (target_of dF)) = false ->
      others_well_linked (document h config) A F = true ->
      snd (constructor config h) = Thrown TypeError) /\
  (forall (this : Restify) (h : heap) (name : string),
      has_own (the_schema h (_collections this)) name = false ->
      inherited name = false ->
      fields this name h = (h, Thrown TypeError)).
Proof.
  split.
  - intros config h A F dF L M NF Hk Ha Hp Ho.
    apply constructor_throws.
    now apply (doc_resolve_throws (document h config) A F dF).
  - intros this h name Ha Hp. unfold fields.
    apply has_own_false in Ha. now rewrite Ha, Hp.
Qed.

Lemma absent_collection_throws_witness :
  snd (constructed dangling_type) = Thrown TypeError /\
  fields one_collection_service "Group" (fst (constructed one_collection))
  = (fst (constructed one_collection), Thrown TypeError).
Proof.
  split.
  - apply (proj1 absent_collection_throws
             (literal_config dangling_type) (literal_heap dangling_type)
             "User" "friend"
             [("type", JStr "Person"); ("relation", JStr "OneToOne");
              ("as", JStr "friendOf")]).
    + vm_compute. reflexivity.
    + reflexivity.
    + discriminate.
    + reflexivity.
    + vm_compute. reflexivity.
    + reflexivity.
    + vm_compute. reflexivity.
  - apply (proj2 absent_collection_throws).
    + vm_compute. reflexivity.
    + reflexivity.
Defined.

(** C8 as stated fails: the [type] of the master field [friend] names no
    collection, and the constructor returns a service, because the
    inverse of [self] has been written over [friend] before the second
    loop reaches it. *)
Lemma overwritten_master_is_not_checked :
  exists h' this,
    constructed overwritten_master = (h', Returned this) /\
    lookup (document (literal_heap overwritten_master)
              (literal_config overwritten_master)) "User" "friend"
    = Some [("type", JStr "Person"); ("relation", JStr "OneToOne");
            ("as", JStr "friendOf")] /\
    has_own (document (literal_heap overwritten_master)
               (literal_config overwritten_master)) "Person" = false /\
    collections this h' = (h', Returned ["User"]).
Proof.
  eexists. eexists. split; [vm_compute; reflexivity |].
  split; [vm_compute; reflexivity |]. split; reflexivity.
Qed.

(* ===================================================================== *)
(** ** What [sync] and [reset] send *)
(* ===================================================================== *)

Lemma for_each_map {S X Y : Type} (g : X -> Y) (body : Y -> M S unit) xs :
  forall s, for_each (map g xs) body s = for_each xs (fun x => body (g x)) s.
Proof.
  induction xs as [| x xs IH]; intro s; [reflexivity |].
  cbn [map]. rewrite !for_each_cons.
  destruct (body (g x) s) as [s' [[] | e | b]]; [apply IH | reflexivity ..].
Qed.

Lemma bind_eq {S A B : Type} (c : M S A) (k : A -> M S B) (s : S) :
  bind c k s
  = match c s with
    | (s', Returned a) => k a s'
    | (s', Thrown e) => (s', Thrown e)
    | (s', Builtin b) => (s', Builtin b)
    end.
Proof. reflexivity. Qed.

Lemma accepted_app c xs ys : accepted c (xs ++ ys) = accepted c xs ++ accepted c ys.
Proof. apply flat_map_app. Qed.

Lemma accepted_cons c x xs : accepted c (x :: xs) = exec_events c x true ++ accepted c xs.
Proof. reflexivity. Qed.

Section Calls.
Variable escapeId : string -> string.
Variable escape : sqlarg -> string.
Variable query : list event -> nat -> string -> string + list row.
Variable quit : list event -> nat -> option string.

Lemma exec_eq (conn : Connection) (sql : string) (t : list event) :
  exec query conn sql t
  = match query (t ++ [Logged ("SQL> " ++ sql)]) (mysql_conn conn) sql with
    | inl err => (t ++ exec_events (mysql_conn conn) sql false, Thrown (Rejected err))
    | inr rows => (t ++ exec_events (mysql_conn conn) sql true, Returned rows)
    end.
Proof.
  unfold exec, exec_events.
  destruct (query _ _ _); rewrite <- app_assoc; reflexivity.
Qed.

Lemma exec_unit_eq (conn : Connection) (sql : string) (t : list event) :
  (exec query conn sql ;; ret tt) t
  = match query (t ++ [Logged ("SQL> " ++ sql)]) (mysql_conn conn) sql with
    | inl err => (t ++ exec_events (mysql_conn conn) sql false, Thrown (Rejected err))
    | inr _ => (t ++ exec_events (mysql_conn conn) sql true, Returned tt)
    end.
Proof.
  unfold bind. rewrite exec_eq. now destruct (query _ _ _).
Qed.

(** A loop of [exec]s sends the statements in order, each after it has
    been logged, and stops at the first one the server rejects, with the
    error the server answered. *)
Lemma exec_each {X : Type} (conn : Connection) (stmt : X -> string) (xs : list X) :
  forall t,
    for_each xs (fun x => exec query conn (stmt x) ;; ret tt) t
    = (t ++ accepted (mysql_conn conn) (map stmt xs), Returned tt) \/
    exists pre x post err,
      xs = pre ++ x :: post /\
      query (t ++ accepted (mysql_conn conn) (map stmt pre)
               ++ [Logged ("SQL> " ++ stmt x)])
        (mysql_conn conn) (stmt x) = inl err /\
      for_each xs (fun x => exec query conn (stmt x) ;; ret tt) t
      = (t ++ accepted (mysql_conn conn) (map stmt pre)
           ++ exec_events (mysql_conn conn) (stmt x) false,
         Thrown (Rejected err)).
Proof.
  induction xs as [| x xs IH]; intro t.
  - left. simpl. unfold ret. now rewrite app_nil_r.
  - rewrite for_each_cons, exec_unit_eq.
    destruct (query _ _ _) as [err | rows] eqn:Q.
    + right. exists [], x, xs, err.
      split; [reflexivity |]. split; [exact Q | reflexivity].
    + destruct (IH (t ++ exec_events (mysql_conn conn) (stmt x) true))
        as [E | (pre & y & post & err & Exs & Qy & E)]; rewrite E.
      * left. cbn [map]. now rewrite accepted_cons, <- app_assoc.
      * right. exists (x :: pre), y, post, err.
        split; [now rewrite Exs |].
        cbn [map]. rewrite accepted_cons, <- !app_assoc.
        rewrite <- !app_assoc in Qy. split; [exact Qy | reflexivity].
Qed.

(** The statements [stmts], then [end]. *)
Lemma statements_then_end (conn : Connection) (stmts : list string)
  (opened : list event) :
  sends_then_ends query quit (mysql_conn conn) opened stmts
    ((for_each stmts (fun sql => exec query conn sql ;; ret tt) ;;
      end_ quit conn) opened).
Proof.
  unfold sends_then_ends. rewrite bind_eq.
  destruct (exec_each conn (fun sql => sql) stmts opened)
    as [E | (pre & x & post & err & Exs & Q & E)]; rewrite E, ?map_id in *.
  - left. unfold end_.
    destruct (quit _ _); now rewrite <- app_assoc.
  - right. now exists pre, x, post, err.
Qed.

Lemma sync_eq (h : heap) (this : Restify) (update : jsval) (t : list event) :
  let conn := {| restify := this; mysql_conn := List.length (filter is_created t) |} in
  sync escapeId query quit h this update t
  = (for_each (keys (the_schema h (_collections this)))
       (fun collectionName => exec query conn (stmtCreateTable escapeId collectionName) ;; ret tt) ;;
     end_ quit conn) (t ++ [Created (mysql_conn conn) (_database this)]).
Proof. reflexivity. Qed.

Lemma reset_eq (this : Restify) (t : list event) :
  let conn := {| restify := this; mysql_conn := List.length (filter is_created t) |} in
  reset escapeId escape query quit this t
  = (tableNameRecords <- exec query conn (stmtSelectTableName escape this) ;;
     (exec query conn (stmtSetForeignKeyCheck escape false) ;; ret tt) ;;
     for_each tableNameRecords
       (fun record => exec query conn (stmtDropTable escapeId (table_name record)) ;; ret tt) ;;
     (exec query conn (stmtSetForeignKeyCheck escape true) ;; ret tt) ;;
     end_ quit conn) (t ++ [Created (mysql_conn conn) (_database this)]).
Proof.
  cbv zeta. unfold reset, connect, bind, ret.
  destruct (exec query _ _ _) as [t1 [rows | e | b]]; try reflexivity.
  destruct (exec query _ _ t1) as [t2 [rows0 | e | b]]; try reflexivity.
  destruct (for_each rows _ t2) as [t3 [[] | e | b]]; try reflexivity.
  destruct (exec query _ _ t3) as [t4 [rows1 | e | b]]; reflexivity.
Qed.


(** What [reset] sends: the statements after the first depend on the
    answer to the first. *)
Lemma reset_run (this : Restify) (t : list event) :
  let c := List.length (filter is_created t) in
  let opened := t ++ [Created c (_database this)] in
  let select := stmtSelectTableName escape this in
  sends_then_ends query quit c opened
    (select
       :: match query (opened ++ [Logged ("SQL> " ++ select)]) c select with
          | inl _ => []
          | inr rows =>
              stmtSetForeignKeyCheck escape false
                :: map (fun record => stmtDropTable escapeId (table_name record))
                     rows
                ++ [stmtSetForeignKeyCheck escape true]
          end)
    (reset escapeId escape query quit this t).
Proof.
  intros c opened select. rewrite reset_eq. cbv zeta. fold c. fold select.
  set (conn := {| restify := this; mysql_conn := c |}).
  change (mysql_conn conn) with c. fold opened.
  rewrite bind_eq, exec_eq. change (mysql_conn conn) with c.
  destruct (query (opened ++ [Logged ("SQL> " ++ select)]) c select)
    as [err | rows] eqn:Q.
  { right. exists [], select, [], err.
    split; [reflexivity |]. split; [exact Q | reflexivity]. }
  set (fk0 := stmtSetForeignKeyCheck escape false).
  set (fk1 := stmtSetForeignKeyCheck escape true).
  set (drop := fun record : row => stmtDropTable escapeId (table_name record)).
  (* the statements after the first, as one loop *)
  assert (E : forall s,
             ((exec query conn fk0 ;; ret tt) ;;
              for_each rows (fun record => exec query conn (drop record) ;; ret tt) ;;
              (exec query conn fk1 ;; ret tt) ;;
              end_ quit conn) s
             = (for_each (fk0 :: map drop rows ++ [fk1])
                  (fun sql => exec query conn sql ;; ret tt) ;;
                end_ quit conn) s).
  { intro s. rewrite (bind_eq (for_each _ _)), for_each_cons, bind_eq.
    destruct ((exec query conn fk0 ;; ret tt) s) as [s1 [[] | e | b]];
      try reflexivity.
    rewrite bind_eq.
    assert (A : forall xs ys (body : string -> M (list event) unit) u,
               for_each (xs ++ ys) body u
               = match for_each xs body u with
                 | (u', Returned _) => for_each ys body u'
                 | (u', Thrown e) => (u', Thrown e)
                 | (u', Builtin b) => (u', Builtin b)
                 end).
    { induction xs as [| x xs IH]; intros ys body u; [reflexivity |].
      cbn [app]. rewrite !for_each_cons.
      destruct (body x u) as [u' [[] | e | b]]; [apply IH | reflexivity ..]. }
    rewrite A, for_each_map.
    destruct (for_each rows _ s1) as [s2 [[] | e | b]]; try reflexivity.
    rewrite bind_eq, for_each_cons.
    destruct ((exec query conn fk1 ;; ret tt) s2) as [s3 [[] | e | b]];
      reflexivity. }
  unfold drop in E. rewrite E. clear E.
  destruct (statements_then_end conn (fk0 :: map drop rows ++ [fk1])
              (opened ++ exec_events c select true)) as [H | H].
  - left. change (mysql_conn conn) with c in H.
    rewrite accepted_cons. rewrite <- !app_assoc in *. exact H.
  - right. destruct H as (pre & s & post & err & Es & Qs & H).
    change (mysql_conn conn) with c in *.
    exists (select :: pre), s, post, err.
    split; [now rewrite Es |].
    rewrite accepted_cons. rewrite <- !app_assoc in *.
    split; [exact Qs | exact H].
Qed.



(** X2.  [reset] asks for the tables of [this._database.db]; if the server
    answers, it switches the foreign key checks off, drops every table
    of the answer in order, and switches the checks on again, before it
    ends the connection.  It stops at the first statement the server
    rejects: no table is dropped unless the checks were switched off,
    and the checks are switched on only after every table was dropped. *)
Theorem reset_calls (this : Restify) (t : list event) :
  let c := List.length (filter is_created t) in
  let select := stmtSelectTableName escape this in
  let opened := t ++ [Created c (_database this)] in
  match query (opened ++ [Logged ("SQL> " ++ select)]) c select with
  | inl err =>
      reset escapeId escape query quit this t
      = (opened ++ exec_events c select false, Thrown (Rejected err))
  | inr rows =>
      let stmts :=
        stmtSetForeignKeyCheck escape false
          :: map (fun record => stmtDropTable escapeId (table_name record)) rows
          ++ [stmtSetForeignKeyCheck escape true] in
      (exists ok,
          fst (reset escapeId escape query quit this t)
          = opened ++ exec_events c select true ++ accepted c stmts
              ++ [Ended c ok] /\
          (ok = true <-> snd (reset escapeId escape query quit this t) = Returned tt)) \/
      (exists pre s post err,
          stmts = pre ++ s :: post /\
          reset escapeId escape query quit this t
          = (opened ++ exec_events c select true ++ accepted c pre
               ++ exec_events c s false,
             Thrown (Rejected err)))
  end.
Proof.
  intros c select opened.
  pose proof (reset_run this t) as R. cbv zeta in R.
  fold c in R. fold opened in R. fold select in R.
  destruct (query (opened ++ [Logged ("SQL> " ++ select)]) c select)
    as [err | rows] eqn:Q.
  - clear R. rewrite reset_eq. cbv zeta. fold c. fold select.
    set (conn := {| restify := this; mysql_conn := c |}).
    change (mysql_conn conn) with c. fold opened.
    rewrite bind_eq, exec_eq. change (mysql_conn conn) with c.
    now rewrite Q.
  - cbv zeta.
    destruct R as [R | (pre & s & post & err & Es & Qs & R)].
    + left. rewrite accepted_cons in R. rewrite <- !app_assoc in R.
      destruct (quit _ c) as [err |]; rewrite R.
      * exists false. split; [reflexivity |]. split; discriminate.
      * exists true. split; [reflexivity |]. split; reflexivity.
    + destruct pre as [| p pre].
      * exfalso. cbn [app] in Es. injection Es as <- _.
        cbn [accepted flat_map app] in Qs. rewrite Q in Qs. discriminate Qs.
      * right. cbn [app] in Es. injection Es as <- Es.
        exists pre, s, post, err. split; [exact Es |].
        rewrite accepted_cons in R. rewrite <- !app_assoc in R. exact R.
Qed.

End Calls.


(* ===================================================================== *)
(** ** What a constructed service knows of the document *)
(* ===================================================================== *)

(** *** The collections and their order *)

Lemma keys_put_member B R x (t : json) : keys (put_member B R x t) = keys t.
Proof. apply keys_alter_own. Qed.

Lemma doc_link_keys t1 : keys (fst (doc_link t1)) = keys t1.
Proof.
  apply (doc_link_invariant (fun t => keys t = keys t1)); [| reflexivity].
  intros A f t Ht.
  destruct (link_step A f t) as [[E _] | (d & inv & _ & _ & _ & _ & E)];
    rewrite E; cbn [fst]; [exact Ht |].
  now rewrite keys_put_member.
Qed.

Lemma doc_resolve_keys t0 : keys (fst (doc_resolve t0)) = keys t0.
Proof.
  rewrite doc_resolve_eq, doc_link_keys.
  destruct (doc_mark_spec t0) as (t' & E & K & _). now rewrite E.
Qed.

Lemma doc_resolve_settled t0 :
  settled (fst (doc_mark t0)) (fst (doc_resolve t0)).
Proof.
  rewrite doc_resolve_eq.
  apply (doc_link_invariant (settled (fst (doc_mark t0)))); [| apply settled_refl].
  intros A f t St. now apply settled_step.
Qed.

(** *** Why the second loop stops *)

Lemma for_each_stopped {S X : Type} (I : S -> Prop) (P : outcome unit -> Prop)
  (body : X -> M S unit) xs :
  (forall x s, In x xs -> I s -> I (fst (body x s))) ->
  (forall x s, In x xs -> I s ->
               snd (body x s) <> Returned tt -> P (snd (body x s))) ->
  forall s, I s ->
            snd (for_each xs body s) <> Returned tt ->
            P (snd (for_each xs body s)).
Proof.
  induction xs as [| x xs IH]; intros HI HP s Is.
  - intro H. now elim H.
  - rewrite for_each_cons.
    pose proof (HI x s (or_introl eq_refl) Is) as I1.
    pose proof (HP x s (or_introl eq_refl) Is) as P1.
    destruct (body x s) as [s1 [[] | e1 | b]]; cbn [fst snd] in *.
    + apply IH; [| | exact I1].
      * intros y s' Hy. apply HI. now right.
      * intros y s' Hy. apply HP. now right.
    + intros _. apply P1. discriminate.
    + intros _. apply P1. discriminate.
Qed.

Lemma link_field_stopped t1 A f t :
  settled t1 t -> lookup t A f <> None ->
  snd (doc_link_field A f t) <> Returned tt ->
  stopped_at t1 (snd (doc_link_field A f t)).
Proof.
  intros St L. rewrite doc_link_field_eq.
  destruct (lookup t A f) as [d |] eqn:Ld; [| contradiction].
  destruct (truthy (attr_of d "master")) eqn:Md; [| intro H; now elim H].
  pose proof (proj2 St A f d Ld Md) as L1.
  destruct (invRelation (attr_of d "relation")) as [inv | e' | k] eqn:Ei.
  - destruct (own_get t (fst (target_of d))) eqn:Ht; [intro H; now elim H |].
    intros _. unfold missing. cbn [snd].
    exists A, f, d. split; [exact L1 |]. split; [exact Md |]. right.
    split; [unfold recognized; now rewrite Ei |]. split; [| reflexivity].
    rewrite <- (proj1 (proj1 St)). now apply has_own_false.
  - intros _. cbn [snd].
    exists A, f, d. split; [exact L1 |]. split; [exact Md |]. left.
    now exists e'.
  - exfalso. unfold invRelation in Ei.
    repeat (destruct (jsval_eqb _ _) in Ei; [discriminate Ei |]).
    discriminate Ei.
Qed.

Lemma link_collection_stopped t1 A t :
  settled t1 t -> has_own t1 A = true ->
  snd (doc_link_collection A t) <> Returned tt ->
  stopped_at t1 (snd (doc_link_collection A t)).
Proof.
  intros St HA. rewrite doc_link_collection_eq.
  rewrite <- (proj1 (proj1 St)) in HA. apply has_own_get in HA.
  destruct HA as [c Hc]. rewrite Hc.
  apply (for_each_stopped
           (fun s => settled t1 s /\
                     forall f, In f (keys c) -> lookup s A f <> None)).
  - intros f s _ [Ss Ls].
    destruct (settled_step t1 A f s Ss) as [S' G]. split; [exact S' |].
    intros g Hg. apply (proj2 G). now apply Ls.
  - intros f s Hf [Ss Ls]. apply link_field_stopped; [exact Ss | now apply Ls].
  - split; [exact St |]. intros f Hf. now apply (keys_in_lookup t A f c).
Qed.

Lemma link_collection_settled t1 A t :
  settled t1 t -> settled t1 (fst (doc_link_collection A t)).
Proof.
  intro St. rewrite doc_link_collection_eq.
  destruct (own_get t A) as [c |]; [| exact St].
  apply for_each_invariant; [| exact St].
  intros f s _ Ss. now apply settled_step.
Qed.

Lemma doc_link_stopped t1 :
  snd (doc_link t1) <> Returned tt -> stopped_at t1 (snd (doc_link t1)).
Proof.
  rewrite doc_link_eq.
  apply (for_each_stopped (settled t1)).
  - intros A s _. apply link_collection_settled.
  - intros A s HA Ss. apply link_collection_stopped; [exact Ss |].
    now apply own_get_keys.
  - apply settled_refl.
Qed.

Lemma invRelation_thrown relation e :
  invRelation relation = Thrown e ->
  e = JsError ("Undefined relation " ++ to_string relation ++ ".") /\
  ~ In relation relation_kinds.
Proof.
  unfold invRelation, relation_kinds.
  destruct (jsval_eqb relation (JStr ONE_TO_ONE)) eqn:E1; [discriminate |].
  destruct (jsval_eqb relation (JStr MANY_TO_MANY)) eqn:E2; [discriminate |].
  destruct (jsval_eqb relation (JStr ONE_TO_MANY)) eqn:E3; [discriminate |].
  destruct (jsval_eqb relation (JStr MANY_TO_ONE)) eqn:E4; [discriminate |].
  intro H. injection H as <-. split; [reflexivity |].
  intros [X | [X | [X | [X | []]]]]; symmetry in X;
    apply jsval_eqb_eq in X; congruence.
Qed.

Lemma recognized_kind relation :
  recognized relation = true -> In relation relation_kinds.
Proof.
  unfold recognized, invRelation, relation_kinds.
  destruct (jsval_eqb _ (JStr ONE_TO_ONE)) eqn:E1;
    [apply jsval_eqb_eq in E1; rewrite E1; simpl; tauto |].
  destruct (jsval_eqb _ (JStr MANY_TO_MANY)) eqn:E2;
    [apply jsval_eqb_eq in E2; rewrite E2; simpl; tauto |].
  destruct (jsval_eqb _ (JStr ONE_TO_MANY)) eqn:E3;
    [apply jsval_eqb_eq in E3; rewrite E3; simpl; tauto |].
  destruct (jsval_eqb _ (JStr MANY_TO_ONE)) eqn:E4;
    [apply jsval_eqb_eq in E4; rewrite E4; simpl; tauto |].
  discriminate.
Qed.

(** Both loops, on a document whose master fields have own targets:
    the run never reaches a built-in object, and it stops only at a
    master field of the document. *)
Lemma doc_resolve_stopped t0 :
  own_targets t0 = true ->
  match snd (doc_resolve t0) with
  | Returned _ => True
  | Thrown e =>
      exists A f d0,
        lookup t0 A f = Some d0 /\ f <> "_id" /\ declares_master d0 = true /\
        ((e = JsError ("Undefined relation " ++ to_string (attr_of d0 "relation") ++ ".")
          /\ ~ In (attr_of d0 "relation") relation_kinds) \/
         (e = TypeError /\
          In (attr_of d0 "relation") relation_kinds /\
          has_own t0 (to_string (attr_of d0 "type")) = false))
  | Builtin _ => False
  end.
Proof.
  intro OT. rewrite doc_resolve_eq.
  pose proof (doc_link_stopped (fst (doc_mark t0))) as H.
  destruct (snd (doc_link (fst (doc_mark t0)))) as [[] | e | k] eqn:O;
    [exact I | |];
    (destruct H as (A & f & d & L & M & C); [discriminate |]);
    destruct (master_after_mark t0 A f d L M) as (d0 & L0 & N & -> & M0);
    rewrite attr_of_mark in C by discriminate;
    rewrite target_of_mark, marked_has_own in C.
  - exists A, f, d0. split; [exact L0 |]. split; [exact N |]. split; [exact M0 |].
    destruct C as [(e' & Ei & Ee) | (Hk & Ha & Ho)].
    + injection Ee as ->. left. now apply invRelation_thrown.
    + rewrite (own_targets_spec t0 OT A f d0 L0 M0 Ha) in Ho.
      injection Ho as ->. right. split; [reflexivity |].
      split; [now apply recognized_kind | exact Ha].
  - destruct C as [(e' & Ei & Ee) | (Hk & Ha & Ho)]; [discriminate Ee |].
    rewrite (own_targets_spec t0 OT A f d0 L0 M0 Ha) in Ho. discriminate Ho.
Qed.

(** *** The objects of the copy *)

Lemma constructor_schema_is_new config h h' this :
  constructor config h = (h', Returned this) ->
  List.length (schemas_of h) <= _collections this.
Proof.
  destruct (JSON_parse_spec h (JSON_stringify h (schema config)))
    as (h1 & s & E & [[B _] _]).
  rewrite (constructor_eq config h h1 s E).
  destruct (for_each _ (mark_collection s) h1) as [h2 [[] | e | k]];
    try discriminate.
  destruct (for_each _ (link_collection s) h2) as [h3 [[] | e | k]];
    try discriminate.
  intro H. injection H as _ <-. exact B.
Qed.

Lemma NoDup_locs_key {V : Type} (o : list (string * V)) k1 k2 v :
  NoDup (map snd o) -> In (k1, v) o -> In (k2, v) o -> k1 = k2.
Proof.
  induction o as [| [k0 v0] o IH]; simpl; intros N H1 H2; [contradiction |].
  inversion N as [| ? ? Hn N']; subst.
  destruct H1 as [H1 | H1], H2 as [H2 | H2].
  - congruence.
  - injection H1 as -> ->. elim Hn. apply in_map_iff. now exists (k2, v).
  - injection H2 as -> ->. elim Hn. apply in_map_iff. now exists (k1, v).
  - now apply IH.
Qed.

(* ===================================================================== *)
(** ** Properties of the constructed service *)
(* ===================================================================== *)

(** X3.  On a document whose master fields have own targets (no [type]
    is a name the schema object only inherits from [Object.prototype],
    so that line 69 writes on no built-in object, [Object] included),
    [collections()] of the constructed service returns the names of the
    collections of the document, in the order in which the copy of the
    document enumerates them: neither loop of the constructor adds,
    removes or reorders a collection. *)
Theorem collections_of_constructed
  (config : Config) (h h' : heap) (this : Restify) :
  own_targets (document h config) = true ->
  constructor config h = (h', Returned this) ->
  collections this h' = (h', Returned (keys (document h config))).
Proof.
  intros _ E. destruct (constructor_returned config h h' this E) as [_ M].
  unfold collections, gets.
  now rewrite <- (models_keys_schema _ _ _ _ _ M), doc_resolve_keys.
Qed.

Lemma collections_of_constructed_witness :
  collections
    {| _database := database (literal_config user_profile);
       _collections := 1; conn := None |}
    (fst (constructed user_profile))
  = (fst (constructed user_profile), Returned ["User"; "Profile"]).
Proof.
  assert (E : constructor (literal_config user_profile) (literal_heap user_profile)
              = (fst (constructed user_profile),
                 Returned {| _database := database (literal_config user_profile);
                             _collections := 1; conn := None |}))
    by (vm_compute; reflexivity).
  assert (OT : own_targets (document (literal_heap user_profile)
                              (literal_config user_profile)) = true)
    by (vm_compute; reflexivity).
  exact (collections_of_constructed _ _ _ _ OT E).
Defined.

(** X4.  On a document whose master fields have own targets (line 69
    then writes on no built-in object), [fields(C)] of the constructed
    service returns, for a collection [C] of the document, a list of
    names that contains [_id] and the name of every field the document
    declares on [C]: the second loop only adds fields or assigns over
    them. *)
Theorem fields_of_constructed
  (config : Config) (h h' : heap) (this : Restify) (C : string) :
  own_targets (document h config) = true ->
  constructor config h = (h', Returned this) ->
  has_own (document h config) C = true ->
  exists names,
    fields this C h' = (h', Returned names) /\
    In "_id" names /\
    forall f, lookup (document h config) C f <> None -> In f names.
Proof.
  intros _ E HC. destruct (constructor_returned config h h' this E) as [_ M].
  pose proof (doc_resolve_settled (document h config)) as [G _].
  set (t2 := fst (doc_resolve (document h config))) in *.
  assert (H2 : has_own t2 C = true).
  { now rewrite (proj1 G), marked_has_own. }
  pose proof H2 as H2'. apply has_own_get in H2'. destruct H2' as [c Hc].
  pose proof (models_own_get _ _ _ _ _ C M) as Hs. rewrite Hc in Hs.
  destruct (own_get (the_schema h' (_collections this)) C) as [cl |] eqn:Hcl;
    [| discriminate].
  exists (keys (the_collection h' cl)).
  unfold fields. rewrite Hcl. split; [reflexivity |].
  rewrite (models_keys _ _ _ _ _ C cl M Hcl).
  unfold collection_at. rewrite Hc.
  assert (K : forall f, lookup (fst (doc_mark (document h config))) C f <> None ->
                        In f (keys c)).
  { intros f Hf. apply (lookup_in_keys t2 C f c Hc). now apply (proj2 G). }
  split.
  - apply K. rewrite marked_id by exact HC. discriminate.
  - intros f Hf. apply K. rewrite marked_lookup, HC. unfold marked.
    destruct (String.eqb f "_id"); [discriminate |].
    destruct (lookup (document h config) C f); [discriminate | contradiction].
Qed.

Lemma fields_of_constructed_witness :
  exists names,
    fields
      {| _database := database (literal_config user_profile);
         _collections := 1; conn := None |}
      "User" (fst (constructed user_profile))
    = (fst (constructed user_profile), Returned names) /\
    In "_id" names.
Proof.
  assert (E : constructor (literal_config user_profile) (literal_heap user_profile)
              = (fst (constructed user_profile),
                 Returned {| _database := database (literal_config user_profile);
                             _collections := 1; conn := None |}))
    by (vm_compute; reflexivity).
  assert (HC : has_own (document (literal_heap user_profile)
                          (literal_config user_profile)) "User" = true)
    by (vm_compute; reflexivity).
  assert (OT : own_targets (document (literal_heap user_profile)
                              (literal_config user_profile)) = true)
    by (vm_compute; reflexivity).
  destruct (fields_of_constructed _ _ _ _ "User" OT E HC)
    as (names & Hn & Hid & _).
  exists names. split; [exact Hn | exact Hid].
Defined.



(** X6.  A field of the resolved schema whose [master] is true is a field
    the document declares with a relation (or with a true [master] of
    its own), after the first loop: the [_id] fields and the inverse
    fields the constructor adds are never master fields. *)
Theorem master_field_is_declared
  (config : Config) (h h' : heap) (this : Restify) (C f : string)
  (d : descriptor) :
  constructor config h = (h', Returned this) ->
  field_at h' (_collections this) C f = Some d ->
  truthy (attr_of d "master") = true ->
  f <> "_id" /\
  exists d0,
    lookup (document h config) C f = Some d0 /\
    declares_master d0 = true /\
    d = mark d0.
Proof.
  intros E L Md. destruct (constructor_returned config h h' this E) as [_ M].
  rewrite (models_field_at _ _ _ _ _ C f M) in L.
  pose proof (doc_resolve_settled (document h config)) as [_ S].
  destruct (master_after_mark _ C f d (S C f d L Md) Md) as (d0 & L0 & N & -> & M0).
  split; [exact N |]. exists d0.
  split; [exact L0 |]. split; [exact M0 | reflexivity].
Qed.

Lemma master_field_is_declared_witness :
  "profile" <> "_id" /\
  exists d0,
    lookup (document (literal_heap user_profile) (literal_config user_profile))
      "User" "profile" = Some d0 /\
    declares_master d0 = true.
Proof.
  assert (E : constructor (literal_config user_profile) (literal_heap user_profile)
              = (fst (constructed user_profile),
                 Returned {| _database := database (literal_config user_profile);
                             _collections := 1; conn := None |}))
    by (vm_compute; reflexivity).
  assert (L : field_at (fst (constructed user_profile)) 1 "User" "profile"
              = Some [("type", JStr "Profile"); ("relation", JStr "OneToOne");
                      ("as", JStr "owner"); ("nullable", JBool true);
                      ("master", JBool true)])
    by (vm_compute; reflexivity).
  assert (Md : truthy (attr_of [("type", JStr "Profile");
                                ("relation", JStr "OneToOne");
                                ("as", JStr "owner"); ("nullable", JBool true);
                                ("master", JBool true)] "master") = true)
    by reflexivity.
  destruct (master_field_is_declared _ _ _ _ "User" "profile" _ E L Md)
    as (N & d0 & L0 & M0 & _).
  split; [exact N |]. exists d0. split; [exact L0 | exact M0].
Defined.

(** X7.  On a document whose master fields have own targets, the
    constructor returns a service or throws, and when it throws, a
    master field of the document is the cause, with one of two errors:
    the [Error] of [invRelation], for a relation that is none of the
    four kinds, or the TypeError of the assignment, for a relation of
    the four kinds and a [type] that names no collection of the
    document.  (A configuration is a value of [Config] here:
    [config.database] and [config.schema] are objects, the collections
    and fields of the schema are objects, and the attributes of a field
    are strings, booleans, [null] or absent.) *)
Theorem constructor_throws_only (config : Config) (h : heap) :
  own_targets (document h config) = true ->
  match snd (constructor config h) with
  | Returned this => True
  | Thrown e =>
      exists A f d0,
        lookup (document h config) A f = Some d0 /\
        f <> "_id" /\
        declares_master d0 = true /\
        ((e = JsError ("Undefined relation " ++ to_string (attr_of d0 "relation") ++ ".")%string
          /\ ~ In (attr_of d0 "relation") relation_kinds) \/
         (e = TypeError /\
          In (attr_of d0 "relation") relation_kinds /\
          has_own (document h config) (to_string (attr_of d0 "type")) = false))
  | Builtin _ => False
  end.
Proof.
  intro OT. pose proof (doc_resolve_stopped (document h config) OT) as H.
  destruct (constructor_spec config h) as (s & sc & _ & O).
  destruct (snd (doc_resolve (document h config))) as [[] | e | k];
    rewrite O; [exact I | exact H | exact H].
Qed.

Lemma constructor_throws_only_witness :
  exists A f d0,
    lookup (document (literal_heap dangling_type) (literal_config dangling_type))
      A f = Some d0 /\
    declares_master d0 = true /\
    has_own (document (literal_heap dangling_type) (literal_config dangling_type))
      (to_string (attr_of d0 "type")) = false.
Proof.
  assert (OT : own_targets (document (literal_heap dangling_type)
                              (literal_config dangling_type)) = true)
    by (vm_compute; reflexivity).
  assert (H : snd (constructor (literal_config dangling_type)
                     (literal_heap dangling_type)) = Thrown TypeError)
    by (vm_compute; reflexivity).
  pose proof (constructor_throws_only (literal_config dangling_type)
                (literal_heap dangling_type) OT) as T.
  rewrite H in T. destruct T as (A & f & d0 & L & _ & M & [[X _] | [_ [_ Ha]]]).
  - discriminate X.
  - exists A, f, d0. split; [exact L |]. split; [exact M | exact Ha].
Defined.

(** X8.  Every object of the resolved schema was made during the call: the
    schema object, every collection object and every field object are
    objects the store did not hold before.  No field object is shared:
    it is reached through one collection name and one field name
    only. *)
Theorem constructor_objects_are_new
  (config : Config) (h h' : heap) (this : Restify) :
  constructor config h = (h', Returned this) ->
  let sc := the_schema h' (_collections this) in
  List.length (schemas_of h) <= _collections this /\
  (forall C cl, own_get sc C = Some cl -> List.length (collections_of h) <= cl) /\
  (forall C cl f fl,
      own_get sc C = Some cl -> own_get (the_collection h' cl) f = Some fl ->
      List.length (fields_of h) <= fl) /\
  (forall C1 cl1 f1 C2 cl2 f2 fl,
      own_get sc C1 = Some cl1 -> own_get (the_collection h' cl1) f1 = Some fl ->
      own_get sc C2 = Some cl2 -> own_get (the_collection h' cl2) f2 = Some fl ->
      C1 = C2 /\ f1 = f2).
Proof.
  intros E sc. destruct (constructor_returned config h h' this E) as [_ [_ H]].
  fold sc in H.
  split; [now apply (constructor_schema_is_new config h h') |].
  split; [| split].
  - intros C cl Hcl. apply (holds_collections _ _ _ _ H).
    now apply (own_get_loc sc C).
  - intros C cl f fl Hcl Hfl. apply (holds_fields _ _ _ _ H cl fl).
    + now apply (own_get_loc sc C).
    + now apply (own_get_loc _ f).
  - intros C1 cl1 f1 C2 cl2 f2 fl H1 F1 H2 F2.
    assert (Ecl : cl1 = cl2).
    { destruct (Nat.eq_dec cl1 cl2) as [Eq | Ne]; [exact Eq |].
      elim (holds_fields_disjoint _ _ _ _ H cl1 cl2 fl).
      - now apply (own_get_loc sc C1).
      - now apply (own_get_loc sc C2).
      - exact Ne.
      - now apply (own_get_loc _ f1).
      - now apply (own_get_loc _ f2). }
    subst cl2. split.
    + apply (NoDup_locs_key sc C1 C2 cl1).
      * exact (holds_collections_apart _ _ _ _ H).
      * now apply own_get_In.
      * now apply own_get_In.
    + apply (NoDup_locs_key (the_collection h' cl1) f1 f2 fl).
      * apply (holds_fields_apart _ _ _ _ H). now apply (own_get_loc sc C1).
      * now apply own_get_In.
      * now apply own_get_In.
Qed.

Lemma constructor_objects_are_new_witness :
  List.length (schemas_of (literal_heap user_profile)) <= 1.
Proof.
  assert (E : constructor (literal_config user_profile) (literal_heap user_profile)
              = (fst (constructed user_profile),
                 Returned {| _database := database (literal_config user_profile);
                             _collections := 1; conn := None |}))
    by (vm_compute; reflexivity).
  exact (proj1 (constructor_objects_are_new _ _ _ _ E)).
Defined.

(* ===================================================================== *)
(** ** The copy of the document *)
(* ===================================================================== *)

Section Rebuild.
Context {V W : Type}.
Variable emit : V -> option W.

(** The members a serializer writes for the keys [ks] of [o]. *)
Let written (o : list (string * V)) (ks : list string) : list (string * W) :=
  flat_map (fun k => match own_get o k with
                     | Some v => match emit v with
                                 | Some w => [(k, w)]
                                 | None => []
                                 end
                     | None => []
                     end) ks.

Let read (o : list (string * V)) (k : string) : option W :=
  match own_get o k with
  | Some v => emit v
  | None => None
  end.

Lemma own_get_rebuild (o : list (string * V)) ks acc k :
  own_get (fold_left (fun a m => own_set a (fst m) (snd m)) (written o ks) acc) k
  = match (if existsb (String.eqb k) ks then read o k else None) with
    | Some w => Some w
    | None => own_get acc k
    end.
Proof.
  unfold written, read. revert acc.
  induction ks as [| k0 ks IH]; intro acc; [reflexivity |].
  cbn [flat_map existsb]. rewrite fold_left_app, IH. clear IH.
  destruct (String.eqb_spec k k0) as [<- | N]; cbn [orb].
  - destruct (own_get o k) as [v |]; [destruct (emit v) as [w |] |];
      cbn [fold_left fst snd].
    + rewrite own_get_own_set, String.eqb_refl.
      now destruct (existsb (String.eqb k) ks).
    + now destruct (existsb (String.eqb k) ks).
    + now destruct (existsb (String.eqb k) ks).
  - assert (X : own_get
                  (fold_left (fun a m => own_set a (fst m) (snd m))
                     match own_get o k0 with
                     | Some v => match emit v with
                                 | Some w => [(k0, w)]
                                 | None => []
                                 end
                     | None => []
                     end acc) k = own_get acc k).
    { destruct (own_get o k0) as [v |]; [destruct (emit v) as [w |] |];
        cbn [fold_left fst snd]; try reflexivity.
      rewrite own_get_own_set.
      destruct (String.eqb_spec k0 k); [congruence | reflexivity]. }
    now rewrite X.
Qed.

Lemma existsb_keys (o : list (string * V)) k :
  existsb (String.eqb k) (keys o) = has_own o k.
Proof.
  destruct (has_own o k) eqn:H.
  - apply existsb_exists. exists k. split; [| apply String.eqb_refl].
    now apply own_get_keys.
  - destruct (existsb (String.eqb k) (keys o)) eqn:X; [| reflexivity].
    apply existsb_exists in X. destruct X as (k' & Hin & Hk).
    apply String.eqb_eq in Hk. subst k'. apply own_get_keys in Hin. congruence.
Qed.

(** Reading what was written for every key of [o] is reading [o]. *)
Lemma own_get_object_of_written (o : list (string * V)) k :
  own_get (object_of (written o (keys o))) k = read o k.
Proof.
  unfold object_of. rewrite own_get_rebuild, existsb_keys.
  unfold read, has_own. destruct (own_get o k) as [v |]; [| reflexivity].
  now destruct (emit v).
Qed.

End Rebuild.

Lemma map_flat_map {X Y Z : Type} (g : Y -> Z) (f : X -> list Y) xs :
  map g (flat_map f xs) = flat_map (fun x => map g (f x)) xs.
Proof.
  induction xs as [| x xs IH]; simpl; [reflexivity |].
  now rewrite map_app, IH.
Qed.

(** An attribute of the copy of a descriptor is the attribute of the
    descriptor: [JSON.stringify] leaves out the attributes whose value
    is [undefined], and reading an attribute that is not there gives
    [undefined]. *)
Lemma attr_of_copy (d : descriptor) name :
  attr_of (object_of (stringify_field d)) name = attr_of d name.
Proof.
  unfold attr_of, stringify_field.
  rewrite (flat_map_ext _
             (fun k => match own_get d k with
                       | Some v => match (fun v => match v with
                                                   | JUndef => None
                                                   | _ => Some v
                                                   end) v with
                                   | Some w => [(k, w)]
                                   | None => []
                                   end
                       | None => []
                       end)).
  2:{ intro k. destruct (own_get d k) as [[] |]; reflexivity. }
  rewrite (own_get_object_of_written
             (fun v => match v with JUndef => None | _ => Some v end) d name).
  destruct (own_get d name) as [[] |]; reflexivity.
Qed.

Lemma own_get_copy_collection h (c : props) f :
  own_get (object_of (map (fun m => (fst m, object_of (snd m)))
                        (stringify_collection h c))) f
  = option_map (fun l => object_of (stringify_field (the_field h l)))
      (own_get c f).
Proof.
  unfold stringify_collection. rewrite map_flat_map.
  rewrite (flat_map_ext _
             (fun k => match own_get c k with
                       | Some l => [(k, object_of (stringify_field (the_field h l)))]
                       | None => []
                       end)).
  2:{ intro k. destruct (own_get c k); reflexivity. }
  refine (eq_trans
            (own_get_object_of_written
               (fun l => Some (object_of (stringify_field (the_field h l)))) c f) _).
  now destruct (own_get c f).
Qed.

Lemma own_get_document h config A :
  own_get (document h config) A
  = option_map
      (fun l => object_of (map (fun m => (fst m, object_of (snd m)))
                             (stringify_collection h (the_collection h l))))
      (own_get (the_schema h (schema config)) A).
Proof.
  unfold document, parse_value, JSON_stringify. rewrite map_flat_map.
  set (sc := the_schema h (schema config)).
  rewrite (flat_map_ext _
             (fun k => match own_get sc k with
                       | Some l =>
                           [(k, object_of
                                  (map (fun m => (fst m, object_of (snd m)))
                                     (stringify_collection h (the_collection h l))))]
                       | None => []
                       end)).
  2:{ intro k. destruct (own_get sc k); reflexivity. }
  refine (eq_trans
            (own_get_object_of_written
               (fun l => Some (object_of
                                 (map (fun m => (fst m, object_of (snd m)))
                                    (stringify_collection h (the_collection h l)))))
               sc A) _).
  now destruct (own_get sc A).
Qed.

(** X9.  [JSON.parse(JSON.stringify(config.schema))] is a copy of the
    caller's document: it has the collections of the caller's schema
    object, every collection has the fields of the caller's collection
    object, and every attribute of every field reads as it does in the
    caller's field object. *)
Theorem document_is_copy (h : heap) (config : Config) (A f : string) :
  has_own (document h config) A = has_own (the_schema h (schema config)) A /\
  match field_at h (schema config) A f with
  | Some d =>
      exists d',
        lookup (document h config) A f = Some d' /\
        forall name, attr_of d' name = attr_of d name
  | None => lookup (document h config) A f = None
  end.
Proof.
  split.
  - unfold has_own. rewrite own_get_document.
    now destruct (own_get (the_schema h (schema config)) A).
  - unfold field_at, lookup, collection_at. rewrite own_get_document.
    destruct (own_get (the_schema h (schema config)) A) as [cl |];
      [| reflexivity].
    cbn [option_map]. rewrite own_get_copy_collection.
    destruct (own_get (the_collection h cl) f) as [l |]; [| reflexivity].
    cbn [option_map]. eexists. split; [reflexivity |].
    intro name. apply attr_of_copy.
Qed.

(* ===================================================================== *)
(** ** [sync] of a constructed service *)
(* ===================================================================== *)

Lemma constructor_database config h h' this :
  constructor config h = (h', Returned this) ->
  _database this = database config.
Proof.
  destruct (JSON_parse_spec h (JSON_stringify h (schema config)))
    as (h1 & s & E & _).
  rewrite (constructor_eq config h h1 s E).
  destruct (for_each _ (mark_collection s) h1) as [h2 [[] | e | k]];
    try discriminate.
  destruct (for_each _ (link_collection s) h2) as [h3 [[] | e | k]];
    try discriminate.
  intro H. injection H as _ <-. reflexivity.
Qed.

Section Healthy.
Variable escapeId : string -> string.
Variable query : list event -> nat -> string -> string + list row.
Variable quit : list event -> nat -> option string.
Hypothesis query_accepts : forall t c sql, exists rows, query t c sql = inr rows.
Hypothesis quit_accepts : forall t c, quit t c = None.

Lemma exec_each_accepted {X : Type} (conn : Connection) (stmt : X -> string)
  (xs : list X) :
  forall t,
    for_each xs (fun x => exec query conn (stmt x) ;; ret tt) t
    = (t ++ accepted (mysql_conn conn) (map stmt xs), Returned tt).
Proof.
  induction xs as [| x xs IH]; intro t.
  - simpl. unfold ret. now rewrite app_nil_r.
  - rewrite for_each_cons, exec_unit_eq.
    destruct (query_accepts (t ++ [Logged ("SQL> " ++ stmt x)])
                (mysql_conn conn) (stmt x)) as [rows Hq].
    rewrite Hq, IH. simpl. now rewrite <- app_assoc.
Qed.

(** X10.  On a server that accepts every statement, [sync] of the service
    constructed from a document whose master fields have own targets
    (line 69 then writes on no built-in object) opens one connection with the database
    settings of the configuration, sends one CREATE TABLE statement for
    each collection of the document, in the order of the document, ends
    the connection and returns. *)
Theorem sync_of_constructed
  (config : Config) (h h' : heap) (this : Restify) (update : jsval)
  (t : list event) :
  own_targets (document h config) = true ->
  constructor config h = (h', Returned this) ->
  let c := List.length (filter is_created t) in
  sync escapeId query quit h' this update t
  = (t ++ Created c (database config)
       :: accepted c (map (stmtCreateTable escapeId) (keys (document h config)))
       ++ [Ended c true],
     Returned tt).
Proof.
  intros _ E c. rewrite sync_eq. cbv zeta. fold c.
  destruct (constructor_returned config h h' this E) as [_ M].
  rewrite <- (models_keys_schema _ _ _ _ _ M), doc_resolve_keys.
  rewrite (constructor_database config h h' this E).
  set (conn := {| restify := this; mysql_conn := c |}).
  change (mysql_conn conn) with c.
  rewrite bind_eq, exec_each_accepted. change (mysql_conn conn) with c.
  unfold end_. rewrite quit_accepts. change (mysql_conn conn) with c.
  rewrite <- !app_assoc. reflexivity.
Qed.

End Healthy.

Lemma sync_of_constructed_witness :
  sync bare (answering []) calm (fst (constructed user_profile))
    {| _database := database (literal_config user_profile);
       _collections := 1; conn := None |}
    JUndef []
  = ([Created 0 (database (literal_config user_profile));
      Logged "SQL> CREATE TABLE IF NOT EXISTS User (id int, PRIMARY KEY(id));";
      Queried 0 "CREATE TABLE IF NOT EXISTS User (id int, PRIMARY KEY(id));" true;
      Logged "SQL> CREATE TABLE IF NOT EXISTS Profile (id int, PRIMARY KEY(id));";
      Queried 0 "CREATE TABLE IF NOT EXISTS Profile (id int, PRIMARY KEY(id));" true;
      Ended 0 true],
     Returned tt).
Proof.
  assert (E : constructor (literal_config user_profile) (literal_heap user_profile)
              = (fst (constructed user_profile),
                 Returned {| _database := database (literal_config user_profile);
                             _collections := 1; conn := None |}))
    by (vm_compute; reflexivity).
  assert (Q : forall (t : list event) (c : nat) (sql : string),
             exists rows, answering [] t c sql = inr rows)
    by (intros; exists []; reflexivity).
  assert (C : forall (t : list event) (c : nat), calm t c = None)
    by reflexivity.
  assert (OT : own_targets (document (literal_heap user_profile)
                              (literal_config user_profile)) = true)
    by (vm_compute; reflexivity).
  exact (sync_of_constructed bare (answering []) calm Q C _ _ _ _ JUndef [] OT E).
Defined.
